(* ========================================================================= *)
(*  STMiner, Algorithm/distance.py: distances between spatial gene patterns. *)
(*                                                                           *)
(*  A shallow embedding of the distance engine and the proofs of its          *)
(*  specification.  Conventions of the embedding:                             *)
(*   - a NumPy float64 is a real number (Stdlib's R) or NaN: arithmetic is    *)
(*     exact, rounding and overflow are outside the model;                    *)
(*   - a Python exception is the [Raise] outcome of the [result] monad, and   *)
(*     a `for` loop is [for_], which stops at the first exception;            *)
(*   - NumPy arrays of a fixed shape are MathComp matrices, Python lists and  *)
(*     dicts are sequences and association lists in insertion order.          *)
(* ========================================================================= *)

From HB Require Import structures.
From Stdlib Require Import Reals ClassicalEpsilon FunctionalExtensionality.
From Stdlib Require Import String.
From mathcomp Require Import boot order algebra.

Set Implicit Arguments.
Unset Strict Implicit.
Unset Printing Implicit Defensive.

Import Order.Theory GRing.Theory Num.Theory.

Local Open Scope ring_scope.

(** Expressions over [R] are read in MathComp's ring scope; Stdlib's own
    notations remain available under the key [Re]. *)
Delimit Scope R_scope with Re.
Bind Scope ring_scope with R.
Arguments exp _%_ring_scope.
Arguments sqrt _%_ring_scope.
Arguments Rpower (_ _)%_ring_scope.

(* ------------------------------------------------------------------------- *)
(** * The real numbers as an ordered field                                    *)
(* ------------------------------------------------------------------------- *)

(** Stdlib's [R] is given the MathComp structures needed for matrices,
    determinants and the order: [+], [*], [<=] below are [Rplus], [Rmult],
    [Rle]. *)
Module RealInstances.

Definition eqr (x y : R) : bool :=
  if Req_EM_T x y is left _ then true else false.

Lemma eqrP : Equality.axiom eqr.
Proof. by move=> x y; rewrite /eqr; case: Req_EM_T => h; constructor. Qed.

HB.instance Definition _ := hasDecEq.Build R eqrP.

Definition findr (P : pred R) (n : nat) : option R :=
  match excluded_middle_informative (exists x, P x) with
  | left ex => Some (proj1_sig (constructive_indefinite_description _ ex))
  | right _ => None
  end.

Lemma findr_correct (P : pred R) n x : findr P n = Some x -> P x.
Proof.
rewrite /findr; case: excluded_middle_informative => // ex [<-].
exact: (proj2_sig (constructive_indefinite_description _ ex)).
Qed.

Lemma findr_complete (P : pred R) : (exists x, P x) -> exists n, findr P n.
Proof.
by move=> ex; exists 0%N; rewrite /findr; case: excluded_middle_informative.
Qed.

Lemma findr_ext (P Q : pred R) : P =1 Q -> findr P =1 findr Q.
Proof.
by move=> PQ n; have -> // : P = Q; exact: functional_extensionality.
Qed.

HB.instance Definition _ :=
  hasChoice.Build R findr_correct findr_complete findr_ext.

Lemma RplusA : associative Rplus.
Proof. by move=> x y z; rewrite Rplus_assoc. Qed.

HB.instance Definition _ := GRing.isZmodule.Build R
  RplusA Rplus_comm Rplus_0_l Rplus_opp_l.

Lemma RmultA : associative Rmult.
Proof. by move=> x y z; rewrite Rmult_assoc. Qed.

Lemma R1_neq0 : R1 != R0 :> R.
Proof. by apply/eqP; exact: R1_neq_R0. Qed.

HB.instance Definition _ := GRing.Zmodule_isComNzRing.Build R
  RmultA Rmult_comm Rmult_1_l Rmult_plus_distr_r R1_neq0.

Lemma RmultVf (x : R) : x != 0 -> Rmult (Rinv x) x = 1.
Proof. by move/eqP => x0; rewrite Rinv_l. Qed.

HB.instance Definition _ := GRing.ComNzRing_isField.Build R RmultVf Rinv_0.

Definition Rleb (x y : R) : bool :=
  if Rle_dec x y is left _ then true else false.

Definition Rltb (x y : R) : bool :=
  if Rlt_dec x y is left _ then true else false.

Lemma RlebP x y : reflect (Rle x y) (Rleb x y).
Proof. by rewrite /Rleb; case: Rle_dec => h; constructor. Qed.

Lemma RltbP x y : reflect (Rlt x y) (Rltb x y).
Proof. by rewrite /Rltb; case: Rlt_dec => h; constructor. Qed.

Lemma Rleb0_add x y : Rleb 0 x -> Rleb 0 y -> Rleb 0 (x + y).
Proof.
by move=> /RlebP hx /RlebP hy; apply/RlebP; exact: Rplus_le_le_0_compat.
Qed.

Lemma Rleb0_mul x y : Rleb 0 x -> Rleb 0 y -> Rleb 0 (x * y).
Proof. by move=> /RlebP hx /RlebP hy; apply/RlebP; exact: Rmult_le_pos. Qed.

Lemma Rleb0_anti x : Rleb 0 x -> Rleb x 0 -> x = 0.
Proof. by move=> /RlebP hx /RlebP hy; exact: Rle_antisym. Qed.

Lemma Rleb_sub_ge0 x y : Rleb 0 (y - x) = Rleb x y.
Proof.
apply/RlebP/RlebP; rewrite /GRing.add /GRing.opp /GRing.zero /= => h.
  move: (Rplus_le_compat_r x _ _ h).
  by rewrite Rplus_assoc Rplus_opp_l Rplus_0_l Rplus_0_r.
by move: (Rplus_le_compat_r (Ropp x) _ _ h); rewrite Rplus_opp_r.
Qed.

Lemma Rleb0_total x : Rleb 0 x || Rleb x 0.
Proof.
apply/orP; case: (Rle_or_lt 0 x) => h; [left|right]; apply/RlebP => //.
exact: Rlt_le.
Qed.

Lemma RabsN x : Rabs (- x) = Rabs x.
Proof. exact: Rabs_Ropp. Qed.

Lemma Rabs_ge0 x : Rleb 0 x -> Rabs x = x.
Proof. by move=> /RlebP h; exact: Rabs_pos_eq. Qed.

Lemma Rltb_def x y : Rltb x y = (y != x) && Rleb x y.
Proof.
apply/RltbP/andP => [h|[/eqP h /RlebP]]; last by case=> // e; case: h.
split; last by apply/RlebP; exact: Rlt_le.
by apply/eqP => e; move: h; rewrite e; exact: Rlt_irrefl.
Qed.

HB.instance Definition _ := Num.IntegralDomain_isLeReal.Build R
  Rleb0_add Rleb0_mul Rleb0_anti Rleb_sub_ge0 Rleb0_total
  RabsN Rabs_ge0 Rltb_def.

End RealInstances.
HB.export RealInstances.

(** Gene identifiers are strings. *)
Definition gene := string.

HB.instance Definition _ := hasDecEq.Build string String.eqb_spec.

(* ------------------------------------------------------------------------- *)
(** * Exceptions, loops and floats                                            *)
(* ------------------------------------------------------------------------- *)

(** The exceptions the Python code can raise.  [InvalidInputError] is the
    failure of the assignment solver of the specification. *)
Inductive exn : Type :=
  | IndexError
  | KeyError
  | ValueError
  | LinAlgError
  | ZeroDivisionError
  | InvalidInputError.

Inductive result (A : Type) : Type :=
  | Ok of A
  | Raise of exn.

Arguments Raise {A} _.

Definition bind (A B : Type) (r : result A) (k : A -> result B) : result B :=
  match r with
  | Ok a => k a
  | Raise e => Raise e
  end.

Declare Scope result_scope.
Delimit Scope result_scope with res.
Notation "x <~ r ;; k" := (bind r (fun x => k))
  (at level 100, r at next level, right associativity,
   format "'[v' x  <~  r  ;; '/' k ']'") : result_scope.
Local Open Scope result_scope.

(** [for x in l: body] with the loop-carried state [s]. *)
Fixpoint for_ (A S : Type) (l : seq A) (body : A -> S -> result S) (s : S)
  : result S :=
  match l with
  | [::] => Ok s
  | x :: l' => s' <~ body x s ;; for_ l' body s'
  end.

(** [s[i]] on a list or on the first axis of an array. *)
Fixpoint getitem (T : Type) (s : seq T) (i : nat) : result T :=
  match s, i with
  | [::], _ => Raise IndexError
  | x :: _, 0%N => Ok x
  | _ :: s', i'.+1 => getitem s' i'
  end.

(** A float64 value: a real number or NaN. *)
Inductive float : Type :=
  | Fin of R
  | NaN.

Definition is_fin (a : float) : bool := if a is Fin _ then true else false.

Definition fin_val (a : float) : R := if a is Fin x then x else 0.

Definition fadd (a b : float) : float :=
  match a, b with
  | Fin x, Fin y => Fin (x + y)
  | _, _ => NaN
  end.

Definition fsub (a b : float) : float :=
  match a, b with
  | Fin x, Fin y => Fin (x - y)
  | _, _ => NaN
  end.

Definition fmul (a b : float) : float :=
  match a, b with
  | Fin x, Fin y => Fin (x * y)
  | _, _ => NaN
  end.

(** Scalar division inside an [@njit] function: Numba's default error model
    raises on a zero divisor. *)
Definition fdiv (a b : float) : result float :=
  match b with
  | Fin y => if y == 0 then Raise ZeroDivisionError
             else Ok (if a is Fin x then Fin (x / y) else NaN)
  | NaN => Ok NaN
  end.

(** [np.sqrt]: NaN on a negative argument. *)
Definition np_sqrt (a : float) : float :=
  match a with
  | Fin x => if x < 0 then NaN else Fin (sqrt x)
  | NaN => NaN
  end.

Definition np_abs (a : float) : float :=
  match a with
  | Fin x => Fin `|x|
  | NaN => NaN
  end.

(** [np.power x y] for a positive non-integer exponent [y] (here 0.25): NaN
    on a negative base, 0 at 0. *)
Definition np_power (x y : R) : float :=
  if x < 0 then NaN else if x == 0 then Fin 0 else Fin (Rpower x y).

(* ------------------------------------------------------------------------- *)
(** * Exact assignment                                                        *)
(* ------------------------------------------------------------------------- *)

(** The cost of the one-to-one matching [f] of the rows of [C] to its
    columns. *)
Definition matching_cost (r c : nat) (C : 'M[R]_(r, c))
  (f : {ffun 'I_r -> 'I_c}) : R :=
  \sum_(i < r) C i (f i).

Definition matching_costs (r c : nat) (C : 'M[R]_(r, c)) : seq R :=
  [seq matching_cost C f
  | f <- [seq f : {ffun 'I_r -> 'I_c} <- enum {ffun 'I_r -> 'I_c}
         | injectiveb f]].

Definition min_seq (s : seq R) : R := foldr Num.min (head 0 s) (behead s).

(** The least total cost over all matchings of the shorter side into the
    longer one: what SciPy's [linear_sum_assignment] followed by
    [cost[row_ind, col_ind].sum()] evaluates to. *)
Definition assignment_cost (r c : nat) (C : 'M[R]_(r, c)) : R :=
  if (r <= c)%N then min_seq (matching_costs C)
  else min_seq (matching_costs C^T).

(** Modelled from the spec: [linear_sum] of STMiner/Algorithm/algorithm.py,
    the ExactAssignmentSolver of section 4.3: the total cost of an exact
    minimum-cost matching, and [InvalidInputError] on a matrix with no row,
    no column or a NaN entry. *)
Definition linear_sum (r c : nat) (cost : 'M[float]_(r, c)) : result R :=
  if (r == 0%N) || (c == 0%N) then Raise InvalidInputError
  else if [forall i, forall j, is_fin (cost i j)]
       then Ok (assignment_cost (map_mx fin_val cost))
       else Raise InvalidInputError.

(* ------------------------------------------------------------------------- *)
(** * Positive-definite matrices                                              *)
(* ------------------------------------------------------------------------- *)

Section QuadraticForms.

Variable F : realFieldType.

(** The quadratic form [x A x^T] of a row vector. *)
Definition qform (n : nat) (A : 'M[F]_n) (x : 'rV[F]_n) : F :=
  (x *m A *m x^T) 0 0.

(** Symmetric positive-definite matrices: the valid covariances. *)
Definition posdef (n : nat) (A : 'M[F]_n) : Prop :=
  A^T = A /\ forall x : 'rV[F]_n, x != 0 -> 0 < qform A x.

(** The Schur complement of the top-left entry. *)
Definition schur (n : nat) (A : 'M[F]_(1 + n)) : 'M[F]_n :=
  drsubmx A - (A 0 0)^-1 *: (dlsubmx A *m ursubmx A).

End QuadraticForms.

(* ------------------------------------------------------------------------- *)
(** * Mixture models and the Hellinger distance                               *)
(* ------------------------------------------------------------------------- *)

(** [np.linalg.inv]: raises on a singular matrix. *)
Definition np_linalg_inv (n : nat) (A : 'M[R]_n) : result 'M[R]_n :=
  if A \in unitmx then Ok (invmx A) else Raise LinAlgError.

(** [np.zeros((m, n))] and the item assignment [a[i, j] = v]. *)
Definition np_zeros (m n : nat) : 'M[float]_(m, n) := const_mx (Fin 0).

Definition setitem (m n : nat) (a : 'M[float]_(m, n)) (i j : nat) (v : float)
  : 'M[float]_(m, n) :=
  \matrix_(p < m, q < n) if (p == i :> nat) && (q == j :> nat) then v
                         else a p q.

Section Mixture.

(** The dimension of the space the Gaussian components live in. *)
Variable D : nat.

(** A fitted mixture model, with the attribute names of scikit-learn. *)
Record GaussianMixture : Type := {
  weights_ : seq R;
  means_ : seq 'rV[R]_D;
  covariances_ : seq 'M[R]_D
}.


Definition get_hellinger_distance
  (gmm1_covs : 'M[R]_D) (gmm1_means : 'rV[R]_D)
  (gmm2_covs : 'M[R]_D) (gmm2_means : 'rV[R]_D) : result float :=
  let mean_cov := map_mx (fun c => c / 2) (gmm1_covs + gmm2_covs) in
  let mean_cov_det := \det mean_cov in
  mean_cov_inv <~ np_linalg_inv mean_cov ;;
  let gmm1_cov_det := \det gmm1_covs in
  let gmm2_cov_det := \det gmm2_covs in
  let means_diff := gmm1_means - gmm2_means in
  let first_term :=
    exp (- (means_diff *m mean_cov_inv *m means_diff^T) 0 0 / 8) in
  second_term <~
    fdiv (fmul (np_power gmm1_cov_det 4^-1) (np_power gmm2_cov_det 4^-1))
         (np_sqrt (Fin mean_cov_det)) ;;
  let hellinger_distance :=
    np_sqrt (np_abs (fsub (Fin 1) (fmul (Fin first_term) second_term))) in
  Ok hellinger_distance.

(** The value the inner loop body computes for the cell [(i, j)]: the
    right-hand sides of lines 34 and 35. *)
Definition cell_value (first_gmm second_gmm : GaussianMixture) (i j : nat)
  : result float :=
  c1 <~ getitem (covariances_ first_gmm) i ;;
  m1 <~ getitem (means_ first_gmm) i ;;
  c2 <~ getitem (covariances_ second_gmm) j ;;
  m2 <~ getitem (means_ second_gmm) j ;;
  hd <~ get_hellinger_distance c1 m1 c2 m2 ;;
  w1 <~ getitem (weights_ first_gmm) i ;;
  w2 <~ getitem (weights_ second_gmm) j ;;
  Ok (fmul (Fin (w1 + w2)) hd).

(** One pass of the inner loop body. *)
Definition distance_cell (first_gmm second_gmm : GaussianMixture)
  (i j : nat) (n : nat) (distance_array : 'M[float]_(n, n))
  : result 'M[float]_(n, n) :=
  v <~ cell_value first_gmm second_gmm i j ;;
  Ok (setitem distance_array i j v).

(** The cost matrix filled by the two nested loops. *)
Definition distance_array (first_gmm second_gmm : GaussianMixture)
  : result 'M[float]_(size (weights_ first_gmm), size (weights_ first_gmm)) :=
  let n_components := size (weights_ first_gmm) in
  for_ (iota 0 n_components) (fun i =>
    for_ (iota 0 n_components) (fun j =>
      distance_cell first_gmm second_gmm i j (n:=n_components)))
    (np_zeros n_components n_components).

Definition distribution_distance (first_gmm second_gmm : GaussianMixture)
  : result R :=
  distance_array <~ distance_array first_gmm second_gmm ;;
  distance <~ linear_sum distance_array ;;
  Ok distance.

End Mixture.

(* ------------------------------------------------------------------------- *)
(** * The Bhattacharyya distance                                              *)
(* ------------------------------------------------------------------------- *)

Arguments ln _%_ring_scope.

(** A float64 value with the IEEE infinities.  [get_bh_distance] is plain
    NumPy code: where the compiled [get_hellinger_distance] raises on a zero
    divisor, NumPy divides and returns an infinity.  The sign of a zero is
    outside the model: a zero divisor counts as +0. *)
Inductive float64 : Type :=
  | Finite of R
  | PosInf
  | NegInf
  | NotANumber.

Definition np_sqrt64 (a : float64) : float64 :=
  match a with
  | Finite x => if x < 0 then NotANumber else Finite (sqrt x)
  | PosInf => PosInf
  | NegInf | NotANumber => NotANumber
  end.

(** [a / b] on NumPy scalars: a warning, never an exception. *)
Definition np_divide (a b : float64) : float64 :=
  match a, b with
  | Finite x, Finite y =>
      if y != 0 then Finite (x / y)
      else if 0 < x then PosInf else if x < 0 then NegInf else NotANumber
  | Finite _, (PosInf | NegInf) => Finite 0
  | PosInf, Finite y => if 0 <= y then PosInf else NegInf
  | NegInf, Finite y => if 0 <= y then NegInf else PosInf
  | _, _ => NotANumber
  end.

(** [np.log]: minus infinity at 0, NaN on a negative argument. *)
Definition np_log (a : float64) : float64 :=
  match a with
  | Finite x =>
      if 0 < x then Finite (ln x) else if x == 0 then NegInf else NotANumber
  | PosInf => PosInf
  | NegInf | NotANumber => NotANumber
  end.

Definition np_add (a b : float64) : float64 :=
  match a, b with
  | Finite x, Finite y => Finite (x + y)
  | (Finite _ | PosInf), PosInf | PosInf, Finite _ => PosInf
  | (Finite _ | NegInf), NegInf | NegInf, Finite _ => NegInf
  | _, _ => NotANumber
  end.

Definition get_bh_distance (D : nat)
  (gmm1_covs : 'M[R]_D) (gmm1_means : 'rV[R]_D)
  (gmm2_covs : 'M[R]_D) (gmm2_means : 'rV[R]_D) : result float64 :=
  let mean_cov := map_mx (fun c => c / 2) (gmm1_covs + gmm2_covs) in
  let mean_cov_det := \det mean_cov in
  mean_cov_inv <~ np_linalg_inv mean_cov ;;
  let means_diff := gmm1_means - gmm2_means in
  let first_term := (means_diff *m mean_cov_inv *m means_diff^T) 0 0 / 8 in
  let second_term :=
    np_divide
      (np_log (np_divide (Finite mean_cov_det)
                 (np_sqrt64 (Finite (\det gmm1_covs * \det gmm2_covs)))))
      (Finite 2) in
  let result := np_add (Finite first_term) second_term in
  Ok result.

(* ------------------------------------------------------------------------- *)
(** * Dicts and labelled frames                                               *)
(* ------------------------------------------------------------------------- *)

(** A Python dict keyed by gene, in insertion order.  The keys of a dict are
    pairwise distinct: [uniq (keys d)]. *)
Definition dict (V : Type) : Type := seq (gene * V).

Definition keys (V : Type) (d : dict V) : seq gene := unzip1 d.

Fixpoint dict_getitem (V : Type) (d : dict V) (k : gene) : result V :=
  match d with
  | [::] => Raise KeyError
  | (k', v) :: d' => if k' == k then Ok v else dict_getitem d' k
  end.

Fixpoint dict_setitem (V : Type) (d : dict V) (k : gene) (v : V) : dict V :=
  match d with
  | [::] => [:: (k, v)]
  | (k', v') :: d' =>
      if k' == k then (k, v) :: d' else (k', v') :: dict_setitem d' k v
  end.

(** A pandas DataFrame of floats with gene labels on both axes. *)
Record DataFrame : Type := {
  index : seq gene;
  columns : seq gene;
  values : 'M[float]_(size index, size columns)
}.

(** [pd.DataFrame(fill, index=idx, columns=cols, dtype=np.float64)]. *)
Definition pd_DataFrame (fill : float) (idx cols : seq gene) : DataFrame :=
  {| index := idx; columns := cols; values := const_mx fill |}.

(** [df.loc[r, c] = v] for labels of the frame: every cell whose row is
    labelled [r] and whose column is labelled [c] is set. *)
Definition loc_setitem (df : DataFrame) (r c : gene) (v : float) : DataFrame :=
  {| index := index df; columns := columns df;
     values := \matrix_(p, q)
       if (tnth (in_tuple (index df)) p == r)
          && (tnth (in_tuple (columns df)) q == c)
       then v else values df p q |}.

(** [df.iat[i, j]]: the cell at a position. *)
Definition iat (df : DataFrame) (i j : nat) : result float :=
  match insub i, insub j with
  | Some p, Some q => Ok (values df p q)
  | _, _ => Raise IndexError
  end.

(** The loop shared by the five builders: [distance_of i j] stands for the
    lines that compute [distance] from the positions [i] and [j]. *)
Definition pairwise_loop (gene_list : seq gene)
  (distance_of : nat -> nat -> result float) (distance_array : DataFrame)
  : result DataFrame :=
  let gene_counts := size gene_list in
  for_ (iota 0 gene_counts) (fun i =>
    for_ (iota 0 gene_counts) (fun j distance_array =>
      if i != j then
        distance <~ distance_of i j ;;
        gi <~ getitem gene_list i ;;
        gj <~ getitem gene_list j ;;
        Ok (loc_setitem distance_array gi gj distance)
      else Ok distance_array))
    distance_array.

(** The common contract of the matrix builders: the outcome is a frame
    labelled by [gene_list] on both axes, with 0 on the diagonal and, off
    the diagonal, the outcome of the metric on the two genes. *)
Definition is_distance_matrix (gene_list : seq gene)
  (metric : gene -> gene -> result float) (r : result DataFrame) : Prop :=
  exists df : DataFrame,
    [/\ r = Ok df, index df = gene_list, columns df = gene_list
      & forall i j, (i < size gene_list)%N -> (j < size gene_list)%N ->
          iat df i j =
          if i == j then Ok (Fin 0)
          else metric (nth EmptyString gene_list i)
                      (nth EmptyString gene_list j)].

(* ------------------------------------------------------------------------- *)
(** * Spatial arrays                                                          *)
(* ------------------------------------------------------------------------- *)

(** The part of an AnnData object the code reads: the expression matrix [X]
    (one row per spot, one column per gene), the gene names and the spot
    coordinates [obs['x']], [obs['y']], which index a grid and are natural
    numbers. *)
Record AnnData : Type := {
  n_obs : nat;
  n_vars : nat;
  var_names : n_vars.-tuple gene;
  X : 'M[R]_(n_obs, n_vars);
  obs_x : n_obs.-tuple nat;
  obs_y : n_obs.-tuple nat
}.

(** The shape [coo_matrix] infers: one more than the largest coordinate. *)
Definition shape0 (adata : AnnData) : nat :=
  (\max_(k < n_obs adata) tnth (obs_x adata) k).+1.

Definition shape1 (adata : AnnData) : nat :=
  (\max_(k < n_obs adata) tnth (obs_y adata) k).+1.

(** [sparse.coo_matrix((data, (x, y))).todense()]: the entries of one cell
    are summed. *)
Definition coo_todense (adata : AnnData) (data : 'cV[R]_(n_obs adata))
  : 'M[R]_(shape0 adata, shape1 adata) :=
  \matrix_(x, y)
    \sum_(k < n_obs adata
         | (tnth (obs_x adata) k == x :> nat)
           && (tnth (obs_y adata) k == y :> nat)) data k 0.

(** [np.mean(a[a != 0])]: NaN when no cell is selected. *)
Definition nonzero_mean (h w : nat) (a : 'M[R]_(h, w)) : float :=
  let selected := [seq a ij.1 ij.2 | ij <- enum (predT : pred ('I_h * 'I_w))
                                  & a ij.1 ij.2 != 0] in
  if selected is [::] then NaN
  else Fin ((\sum_(c <- selected) c) / (size selected)%:R).

(** [np.maximum]: NaN propagates. *)
Definition np_maximum (a b : float) : float :=
  match a, b with
  | Fin x, Fin y => Fin (Num.max x y)
  | _, _ => NaN
  end.

Definition int_of_Z (z : Z) : int :=
  match z with
  | Z0 => 0
  | Zpos p => Posz (Pos.to_nat p)
  | Zneg p => Negz (Pos.to_nat p).-1
  end.

(** [up x] is the integer with [x < up x <= x + 1]. *)
Definition floor (x : R) : int := int_of_Z (Z.pred (up x)).

(** [np.round]: to the nearest integer, halves to the even one. *)
Definition np_round (x : R) : int :=
  let f := floor x in
  let d := x - f%:~R in
  if d < 2^-1 then f
  else if 2^-1 < d then f + 1
  else if odd `|f|%N then f + 1 else f.

Definition INT32_MIN : int := - 2 ^+ 31.

(** The conversion to [np.int32].  NaN and values out of range have no
    defined result in C; x86-64 stores INT32_MIN. *)
Definition astype_int32 (a : float) : int :=
  match a with
  | Fin x =>
      let z := np_round x in
      if (INT32_MIN <= z) && (z < 2 ^+ 31) then z else INT32_MIN
  | NaN => INT32_MIN
  end.

Definition get_exp_array (adata : AnnData) (gene_name : gene)
  (remove_low_exp_spots : bool)
  : result 'M[int]_(shape0 adata, shape1 adata) :=
  match [pick k | tnth (var_names adata) k == gene_name] with
  | None => Raise IndexError
  | Some k =>
      if n_obs adata == 0%N then Raise ValueError
      else
        let data := col k (X adata) in
        let dense_array := coo_todense data in
        let dense_array :=
          if remove_low_exp_spots then
            let m := nonzero_mean dense_array in
            map_mx (fun c => np_maximum (fsub (Fin c) m) (Fin 0)) dense_array
          else map_mx Fin dense_array in
        Ok (map_mx astype_int32 dense_array)
  end.

(** Two's complement wrap-around of int32 arithmetic. *)
Definition wrap32 (z : int) : int :=
  ((z + 2 ^+ 31) %% 2 ^+ 32)%Z - 2 ^+ 31.

(** [mse], compiled by Numba: the difference and the square are int32
    arrays, the mean accumulates in float64. *)
Definition mse (h w : nat) (arr_i arr_j : 'M[int]_(h, w)) : result float :=
  let sq := \matrix_(p, q) wrap32 (wrap32 (arr_i p q - arr_j p q) ^+ 2) in
  if (h * w == 0)%N then Raise ZeroDivisionError
  else Ok (Fin ((\sum_p \sum_q (sq p q)%:~R) / (h * w)%:R)).

(** [scipy.spatial.distance.cdist]: Euclidean distances between the rows. *)
Definition cdist (h1 h2 w : nat) (XA : 'M[int]_(h1, w)) (XB : 'M[int]_(h2, w))
  : 'M[R]_(h1, h2) :=
  \matrix_(p, q) sqrt (\sum_(k < w) ((XA p k)%:~R - (XB q k)%:~R) ^+ 2).

(* ------------------------------------------------------------------------- *)
(** * Distance matrices                                                       *)
(* ------------------------------------------------------------------------- *)

Section Builders.

Variable D : nat.

(** [scipy.spatial.distance.cosine], a function of the two flattened
    arrays. *)
Variable cosine : forall n : nat, 'rV[int]_n -> 'rV[int]_n -> float.

Definition build_gmm_distance_array (gmm_dict : dict (GaussianMixture D))
  : result DataFrame :=
  let gene_list := keys gmm_dict in
  let gene_counts := size gene_list in
  let distance_array := pd_DataFrame (Fin 0) gene_list gene_list in
  for_ (iota 0 gene_counts) (fun i =>
    for_ (iota 0 gene_counts) (fun j distance_array =>
      if i != j then
        distance <~ (gi <~ getitem gene_list i ;;
                     gmm_i <~ dict_getitem gmm_dict gi ;;
                     gj <~ getitem gene_list j ;;
                     gmm_j <~ dict_getitem gmm_dict gj ;;
                     distance <~ distribution_distance gmm_i gmm_j ;;
                     Ok (Fin distance)) ;;
        gi <~ getitem gene_list i ;;
        gj <~ getitem gene_list j ;;
        Ok (loc_setitem distance_array gi gj distance)
      else Ok distance_array))
    distance_array.


(** The spatial array of every gene of the list, computed before the loop. *)
Definition gene_arrays (adata : AnnData) (gene_list : seq gene)
  : result (dict 'M[int]_(shape0 adata, shape1 adata)) :=
  for_ gene_list (fun gene gene_arr_dict =>
    arr <~ get_exp_array adata gene false ;;
    Ok (dict_setitem gene_arr_dict gene arr))
  [::].

Definition build_cosine_similarity_array (adata : AnnData)
  (gene_list : seq gene) : result DataFrame :=
  gene_arr_dict <~ gene_arrays adata gene_list ;;
  let gene_counts := size gene_list in
  let distance_array := pd_DataFrame (Fin 0) gene_list gene_list in
  for_ (iota 0 gene_counts) (fun i =>
    for_ (iota 0 gene_counts) (fun j distance_array =>
      if i != j then
        distance <~ (gi <~ getitem gene_list i ;;
                     arr_i <~ dict_getitem gene_arr_dict gi ;;
                     gj <~ getitem gene_list j ;;
                     arr_j <~ dict_getitem gene_arr_dict gj ;;
                     Ok (cosine (mxvec arr_i) (mxvec arr_j))) ;;
        gi <~ getitem gene_list i ;;
        gj <~ getitem gene_list j ;;
        Ok (loc_setitem distance_array gi gj distance)
      else Ok distance_array))
    distance_array.

Definition build_mse_distance_array (adata : AnnData) (gene_list : seq gene)
  : result DataFrame :=
  gene_arr_dict <~ gene_arrays adata gene_list ;;
  let gene_counts := size gene_list in
  let distance_array := pd_DataFrame (Fin 0) gene_list gene_list in
  for_ (iota 0 gene_counts) (fun i =>
    for_ (iota 0 gene_counts) (fun j distance_array =>
      if i != j then
        distance <~ (gi <~ getitem gene_list i ;;
                     arr_i <~ dict_getitem gene_arr_dict gi ;;
                     gj <~ getitem gene_list j ;;
                     arr_j <~ dict_getitem gene_arr_dict gj ;;
                     mse arr_i arr_j) ;;
        gi <~ getitem gene_list i ;;
        gj <~ getitem gene_list j ;;
        Ok (loc_setitem distance_array gi gj distance)
      else Ok distance_array))
    distance_array.

(** [adata[:, [gene]].X]: the column of a gene, [KeyError] on an unknown
    name. *)
Definition adata_column (adata : AnnData) (g : gene)
  : result 'cV[R]_(n_obs adata) :=
  if [pick k | tnth (var_names adata) k == g] is Some k
  then Ok (col k (X adata)) else Raise KeyError.

(** [np.mean(np.square(diff))] in NumPy: NaN on an empty array. *)
Definition mean_square (n : nat) (diff : 'cV[R]_n) : float :=
  if n == 0%N then NaN else Fin ((\sum_k diff k 0 ^+ 2) / n%:R).

Definition build_mix_distance_array (adata : AnnData)
  (gmm_dict : dict (GaussianMixture D)) : result DataFrame :=
  let gene_list := keys gmm_dict in
  let gene_counts := size gene_list in
  let distance_array := pd_DataFrame (Fin 0) gene_list gene_list in
  for_ (iota 0 gene_counts) (fun i =>
    for_ (iota 0 gene_counts) (fun j distance_array =>
      if i != j then
        distance <~ (gi <~ getitem gene_list i ;;
                     xi <~ adata_column adata gi ;;
                     gj <~ getitem gene_list j ;;
                     xj <~ adata_column adata gj ;;
                     let diff := xi - xj in
                     let mse_distance := mean_square diff in
                     gi <~ getitem gene_list i ;;
                     gmm_i <~ dict_getitem gmm_dict gi ;;
                     gj <~ getitem gene_list j ;;
                     gmm_j <~ dict_getitem gmm_dict gj ;;
                     gmm_distance <~ distribution_distance gmm_i gmm_j ;;
                     Ok (fadd mse_distance (Fin gmm_distance))) ;;
        gi <~ getitem gene_list i ;;
        gj <~ getitem gene_list j ;;
        Ok (loc_setitem distance_array gi gj distance)
      else Ok distance_array))
    distance_array.

Definition build_ot_distance_array (adata : AnnData) (gene_list : seq gene)
  : result DataFrame :=
  let gene_counts := size gene_list in
  let distance_array := pd_DataFrame (Fin 0) gene_list gene_list in
  for_ (iota 0 gene_counts) (fun i =>
    for_ (iota 0 gene_counts) (fun j distance_array =>
      if i != j then
        distance <~ (gi <~ getitem gene_list i ;;
                     arr_i <~ get_exp_array adata gi false ;;
                     gj <~ getitem gene_list j ;;
                     arr_j <~ get_exp_array adata gj false ;;
                     let d := cdist arr_i arr_j in
                     (* assignment = linear_sum_assignment(d);
                        d[assignment].sum() *)
                     let distance := assignment_cost d in
                     Ok (Fin distance)) ;;
        gi <~ getitem gene_list i ;;
        gj <~ getitem gene_list j ;;
        Ok (loc_setitem distance_array gi gj distance)
      else Ok distance_array))
    distance_array.

(** The pairwise metric of each builder, as a function of the two genes:
    the lines of the loop body that compute [distance]. *)
Definition gmm_metric (gmm_dict : dict (GaussianMixture D)) (g h : gene)
  : result float :=
  gmm_g <~ dict_getitem gmm_dict g ;;
  gmm_h <~ dict_getitem gmm_dict h ;;
  distance <~ distribution_distance gmm_g gmm_h ;;
  Ok (Fin distance).

Definition cosine_metric (adata : AnnData) (g h : gene) : result float :=
  arr_g <~ get_exp_array adata g false ;;
  arr_h <~ get_exp_array adata h false ;;
  Ok (cosine (mxvec arr_g) (mxvec arr_h)).

Definition mse_metric (adata : AnnData) (g h : gene) : result float :=
  arr_g <~ get_exp_array adata g false ;;
  arr_h <~ get_exp_array adata h false ;;
  mse arr_g arr_h.

Definition mix_metric (adata : AnnData) (gmm_dict : dict (GaussianMixture D))
  (g h : gene) : result float :=
  xg <~ adata_column adata g ;;
  xh <~ adata_column adata h ;;
  gmm_g <~ dict_getitem gmm_dict g ;;
  gmm_h <~ dict_getitem gmm_dict h ;;
  gmm_distance <~ distribution_distance gmm_g gmm_h ;;
  Ok (fadd (mean_square (xg - xh)) (Fin gmm_distance)).

Definition ot_metric (adata : AnnData) (g h : gene) : result float :=
  arr_g <~ get_exp_array adata g false ;;
  arr_h <~ get_exp_array adata h false ;;
  Ok (Fin (assignment_cost (cdist arr_g arr_h))).

End Builders.

(* ------------------------------------------------------------------------- *)
(** * Plot/plot.py: the helpers of the plots of spatial arrays                *)
(* ------------------------------------------------------------------------- *)

Section ArrayFlips.

Variable T : Type.

(** [np.rot90]: a quarter turn counterclockwise, [m[j, w-1-i]] at [(i, j)]. *)
Definition np_rot90 (h w : nat) (m : 'M[T]_(h, w)) : 'M[T]_(w, h) :=
  \matrix_(i, j) m j (rev_ord i).

(** [np.flipud] and [np.fliplr]: the rows, the columns in reverse order. *)
Definition np_flipud (h w : nat) (m : 'M[T]_(h, w)) : 'M[T]_(h, w) :=
  \matrix_(i, j) m (rev_ord i) j.

Definition np_fliplr (h w : nat) (m : 'M[T]_(h, w)) : 'M[T]_(h, w) :=
  \matrix_(i, j) m i (rev_ord j).

(** The shape of the outcome depends on [rotate]. *)
Definition _adjust_arr (h w : nat) (arr : 'M[T]_(h, w))
  (rotate reverse_x reverse_y : bool)
  : 'M[T]_(if rotate then w else h, if rotate then h else w) :=
  let arr :=
    if rotate as b return 'M[T]_(if b then w else h, if b then h else w)
    then np_rot90 arr else arr in
  let arr := if reverse_y then np_flipud arr else arr in
  let arr := if reverse_x then np_fliplr arr else arr in
  arr.

End ArrayFlips.

(** The array of axes returned by [plt.subplots(nrows, ncols)], by its
    shape: the dimensions of length 1 are squeezed out, down to a lone Axes
    object for a 1 x 1 grid. *)
Inductive axes_array : Type :=
  | SingleAxes
  | Axes1D of nat
  | Axes2D of nat & nat.

(** [plt.subplots]: [None] stands for the ValueError raised on an empty
    grid. *)
Definition plt_subplots (nrows ncols : nat) : option axes_array :=
  if (nrows == 0%N) || (ncols == 0%N) then None
  else Some (match nrows, ncols with
             | 1%N, 1%N => SingleAxes
             | 1%N, n | n, 1%N => Axes1D n
             | r, c => Axes2D r c
             end).

(** [_get_figure], as far as the grid goes.  [None] stands for an
    exception: ZeroDivisionError when [num_cols] is 0, the ValueError of
    [plt.subplots], AttributeError when [axes.flat] is asked of a lone
    Axes object. *)
Definition _get_figure (fig_count num_cols : nat) : option axes_array :=
  if num_cols == 0%N then None
  else
    let num_rows := ((fig_count + num_cols - 1) %/ num_cols)%N in
    match plt_subplots num_rows num_cols with
    | Some SingleAxes => None
    | axes => axes
    end.

(** The axis of the [i]-th figure, lines 86-91 of [plot_genes] and 130-135
    of [plot_pattern], as its position in [axes.flat]; [None] stands for an
    IndexError. *)
Definition figure_ax (axes : axes_array) (num_cols i : nat) : option nat :=
  if num_cols == 0%N then None
  else
    let row := (i %/ num_cols)%N in
    let col := (i %% num_cols)%N in
    match axes with
    | SingleAxes => None
    | Axes1D n => if (i < n)%N then Some i else None
    | Axes2D r c =>
        if (row < r)%N && (col < c)%N then Some (row * c + col)%N else None
    end.

(* ------------------------------------------------------------------------- *)
(** * Concrete inputs                                                         *)
(* ------------------------------------------------------------------------- *)




(** A dataset of two spots, (0, 0) and (1, 0), and two genes: "a" is
    expressed at both spots, "zero" at none. *)
Definition adata_ex : AnnData :=
  {| n_obs := 2; n_vars := 2;
     var_names := [tuple "a"%string; "zero"%string];
     X := \matrix_(s < 2, k < 2) (if k == 0%N :> nat then (s.+1)%:R else 0);
     obs_x := [tuple 0%N; 1%N];
     obs_y := [tuple 0%N; 0%N] |}.


(** A model of one component whose covariance is the zero matrix. *)
Definition gmm_flat : GaussianMixture 1 :=
  {| weights_ := [:: 1]; means_ := [:: 0]; covariances_ := [:: 0] |}.

(* ========================================================================= *)
(** * Properties                                                              *)
(* ========================================================================= *)

(* ------------------------------------------------------------------------- *)
(** ** Positive-definite matrices: determinants and Schur complements         *)
(* ------------------------------------------------------------------------- *)

Section PositiveDefinite.

Variable F : realFieldType.

Lemma mxD00 m n (P Q : 'M[F]_(m.+1, n.+1)) : (P + Q) 0 0 = P 0 0 + Q 0 0.
Proof. by rewrite mxE. Qed.

Lemma mxB00 m n (P Q : 'M[F]_(m.+1, n.+1)) : (P - Q) 0 0 = P 0 0 - Q 0 0.
Proof. by rewrite !mxE. Qed.

Lemma mxZ00 m n c (P : 'M[F]_(m.+1, n.+1)) : (c *: P) 0 0 = c * P 0 0.
Proof. by rewrite mxE. Qed.

Lemma scalar00 (a : F) : (a%:M : 'M[F]_1) 0 0 = a.
Proof. by rewrite mxE eqxx mulr1n. Qed.

Lemma mx11_mul (P Q : 'M[F]_1) : (P *m Q) 0 0 = P 0 0 * Q 0 0.
Proof. by rewrite mxE big_ord1. Qed.

Lemma mx11_trE m (u y : 'rV[F]_m) : (u *m y^T) 0 0 = (y *m u^T) 0 0.
Proof. by rewrite -[u *m y^T]trmxK trmx_mul trmxK mxE. Qed.

Lemma qformD n (A B : 'M[F]_n) x : qform (A + B) x = qform A x + qform B x.
Proof. by rewrite /qform mulmxDr mulmxDl mxD00. Qed.

Lemma qformZ n c (A : 'M[F]_n) x : qform (c *: A) x = c * qform A x.
Proof. by rewrite /qform -scalemxAr -scalemxAl mxZ00. Qed.

Lemma qform0 n (A : 'M[F]_n) : qform A 0 = 0.
Proof. by rewrite /qform !mul0mx mxE. Qed.

Lemma qform_ge0 n (A : 'M[F]_n) x : posdef A -> 0 <= qform A x.
Proof.
case=> _ pos; have [->|x0] := eqVneq x 0; first by rewrite qform0.
exact/ltW/pos.
Qed.

Lemma posdefD n (A B : 'M[F]_n) : posdef A -> posdef B -> posdef (A + B).
Proof.
move=> [sA pA] [sB pB]; split; first by rewrite linearD /= sA sB.
by move=> x x0; rewrite qformD addr_gt0 ?pA ?pB.
Qed.

Lemma posdefZ n c (A : 'M[F]_n) : 0 < c -> posdef A -> posdef (c *: A).
Proof.
move=> c0 [sA pA]; split; first by rewrite linearZ /= sA.
by move=> x x0; rewrite qformZ mulr_gt0 ?pA.
Qed.

Lemma qform_block n (a t : F) (u y : 'rV[F]_n) (A' : 'M[F]_n) :
  qform (block_mx a%:M u u^T A' : 'M_(1 + n)) (row_mx t%:M y) =
  a * t ^+ 2 + 2 * t * (y *m u^T) 0 0 + qform A' y.
Proof.
rewrite /qform mul_row_block tr_row_mx mul_row_col tr_scalar_mx.
rewrite !mulmxDl !mxD00 -!scalar_mxM mul_mx_scalar mul_scalar_mx -scalemxAl.
by rewrite !mxZ00 scalar00 mx11_trE; ring.
Qed.

Lemma qform_schur_block n (a : F) (u y : 'rV[F]_n) (A' : 'M[F]_n) :
  qform (A' - a^-1 *: (u^T *m u)) y = qform A' y - a^-1 * (y *m u^T) 0 0 ^+ 2.
Proof.
rewrite /qform mulmxBr mulmxBl -scalemxAr -scalemxAl mxB00 mxZ00.
by rewrite mulmxA -[_ *m u *m _]mulmxA mx11_mul (mx11_trE u y) expr2.
Qed.

Lemma symm_blockE n (A : 'M[F]_(1 + n)) :
  A^T = A -> A = block_mx (A 0 0)%:M (ursubmx A) (ursubmx A)^T (drsubmx A).
Proof.
move=> sA; rewrite -[LHS]submxK; congr block_mx; last by rewrite trmx_ursub sA.
by rewrite [LHS]mx11_scalar !mxE !lshift0.
Qed.

Lemma schur_blockE n (A : 'M[F]_(1 + n)) :
  A^T = A -> schur A = drsubmx A - (A 0 0)^-1 *: ((ursubmx A)^T *m ursubmx A).
Proof. by move=> sA; rewrite /schur trmx_ursub sA. Qed.

Lemma row_blockE n (x : 'rV[F]_(1 + n)) : x = row_mx (x 0 0)%:M (rsubmx x).
Proof.
by rewrite -[LHS]hsubmxK; congr row_mx; rewrite [LHS]mx11_scalar !mxE lshift0.
Qed.

(* Completing the square along the first coordinate. *)
Lemma qform_square n (A : 'M[F]_(1 + n)) (t : F) (y : 'rV[F]_n) :
  A^T = A -> A 0 0 != 0 ->
  qform A (row_mx t%:M y) =
  A 0 0 * (t + (A 0 0)^-1 * (y *m (ursubmx A)^T) 0 0) ^+ 2 + qform (schur A) y.
Proof.
move=> sA a0; rewrite (schur_blockE sA) qform_schur_block.
by rewrite {1}(symm_blockE sA) qform_block; field.
Qed.

Lemma row_mx00 n (t : F) (y : 'rV[F]_n) : (row_mx t%:M y : 'rV_(1 + n)) 0 0 = t.
Proof. by rewrite -(lshift0 n 0) row_mxEl scalar00. Qed.

Lemma posdef_head n (A : 'M[F]_(1 + n)) : posdef A -> 0 < A 0 0.
Proof.
case=> sA /(_ (row_mx 1%:M 0)).
rewrite [X in qform X](symm_blockE sA) qform_block.
rewrite mul0mx mxE qform0 expr1n !mulr0 mulr1 !addr0; apply.
by apply/eqP=> /rowP /(_ 0); rewrite row_mx00 mxE => /eqP; rewrite oner_eq0.
Qed.


Lemma row_mx_neq0 n (t : F) (y : 'rV[F]_n) :
  y != 0 -> (row_mx t%:M y : 'rV_(1 + n)) != 0.
Proof.
apply: contra_neq => /(congr1 rsubmx); rewrite row_mxKr => ->.
by apply/rowP=> j; rewrite !mxE.
Qed.

Lemma schur_le n (A : 'M[F]_(1 + n)) t y :
  posdef A -> qform (schur A) y <= qform A (row_mx t%:M y).
Proof.
move=> pA; have a0 := posdef_head pA; case: (pA) => sA _.
rewrite (qform_square _ _ sA) ?gt_eqF // lerDr mulr_ge0 ?sqr_ge0 //.
exact: ltW.
Qed.

Lemma schur_eq n (A : 'M[F]_(1 + n)) y :
  posdef A -> exists t, qform (schur A) y = qform A (row_mx t%:M y).
Proof.
move=> pA; have a0 := posdef_head pA; case: (pA) => sA _.
exists (- ((A 0 0)^-1 * (y *m (ursubmx A)^T) 0 0)).
by rewrite (qform_square _ _ sA) ?gt_eqF // addNr expr0n mulr0 add0r.
Qed.

Lemma posdef_schur n (A : 'M[F]_(1 + n)) : posdef A -> posdef (schur A).
Proof.
move=> pA; case: (pA) => sA pos; split.
  rewrite (schur_blockE sA) linearB linearZ /= trmx_mul trmxK.
  by rewrite trmx_drsub sA.
move=> y y0; have [t ->] := schur_eq y pA.
exact/pos/row_mx_neq0.
Qed.

Lemma det_schur n (A : 'M[F]_(1 + n)) :
  A 0 0 != 0 -> \det A = A 0 0 * \det (schur A).
Proof.
move=> a0.
pose L : 'M[F]_(1 + n) :=
  block_mx 1%:M 0 (- (A 0 0)^-1 *: dlsubmx A) 1%:M.
have detL : \det L = 1 by rewrite det_lblock !det1 mulr1.
have ulE : ulsubmx A = (A 0 0)%:M by rewrite [LHS]mx11_scalar !mxE !lshift0.
have -> : \det A = \det (L *m A) by rewrite det_mulmx detL mul1r.
rewrite -{1}[A]submxK mulmx_block !mul1mx !mul0mx !addr0.
have -> : - (A 0 0)^-1 *: dlsubmx A *m ulsubmx A + dlsubmx A = 0.
  rewrite ulE mul_mx_scalar scalerA mulrN mulfV // scaleN1r.
  by rewrite addNr.
rewrite det_ublock ulE det_scalar1; congr (_ * \det _).
by rewrite /schur addrC -scalemxAl scaleNr.
Qed.

Lemma posdef_det_gt0 n (A : 'M[F]_n) : posdef A -> 0 < \det A.
Proof.
elim: n => [|n IHn] in A *; first by rewrite det_mx00.
move=> pA; have a0 := posdef_head (pA : posdef (A : 'M_(1 + n))).
rewrite (@det_schur n A) ?gt_eqF // mulr_gt0 //.
exact/IHn/posdef_schur.
Qed.

Lemma posdef_unit n (A : 'M[F]_n) : posdef A -> A \in unitmx.
Proof. by move=> /posdef_det_gt0 d0; rewrite unitmxE unitfE gt_eqF. Qed.

Lemma qform_head n (A : 'M[F]_(1 + n)) :
  A^T = A -> qform A (row_mx 1%:M 0) = A 0 0.
Proof.
move=> sA; rewrite [X in qform X](symm_blockE sA) qform_block.
by rewrite mul0mx mxE qform0 expr1n !mulr0 mulr1 !addr0.
Qed.

(* The determinant is monotone for the Loewner order on definite matrices. *)
Lemma posdef_det_le n (A B : 'M[F]_n) :
  posdef A -> posdef B -> (forall x, qform B x <= qform A x) ->
  \det B <= \det A.
Proof.
elim: n => [|n IHn] in A B *; first by rewrite !det_mx00.
move=> pA pB leBA.
have a0 := posdef_head (pA : posdef (A : 'M_(1 + n))).
have b0 := posdef_head (pB : posdef (B : 'M_(1 + n))).
rewrite (@det_schur n A) ?(@det_schur n B) ?gt_eqF //.
apply: ler_pM.
- exact: ltW.
- exact/ltW/posdef_det_gt0/posdef_schur.
- case: (pA) (pB) => sA _ [sB _].
  by have := leBA (row_mx 1%:M 0); rewrite (@qform_head n A) ?(@qform_head n B).
apply: IHn; try exact: posdef_schur.
move=> y; have [t ->] := schur_eq y (pA : posdef (A : 'M_(1 + n))).
exact: le_trans (schur_le t y pB) (leBA _).
Qed.

(* Midpoint log-concavity of the determinant on definite matrices. *)
Lemma posdef_det_mid n (A B : 'M[F]_n) :
  posdef A -> posdef B ->
  \det A * \det B <= \det (2^-1 *: (A + B)) ^+ 2.
Proof.
elim: n => [|n IHn] in A B *; first by rewrite !det_mx00 expr1n mulr1.
move=> pA pB.
have h2 : (0 : F) < 2^-1 by rewrite invr_gt0 ltr0n.
have pM : posdef (2^-1 *: (A + B)) by apply: posdefZ => //; exact: posdefD.
have a0 := posdef_head (pA : posdef (A : 'M_(1 + n))).
have b0 := posdef_head (pB : posdef (B : 'M_(1 + n))).
have m0 := posdef_head (pM : posdef (_ : 'M_(1 + n))).
have pSA := posdef_schur (pA : posdef (A : 'M_(1 + n))).
have pSB := posdef_schur (pB : posdef (B : 'M_(1 + n))).
have pSM := posdef_schur (pM : posdef (_ : 'M_(1 + n))).
set M := 2^-1 *: (A + B) in pM m0 pSM *.
pose N := 2^-1 *: (schur (A : 'M_(1 + n)) + schur (B : 'M_(1 + n))).
have pN : posdef N by apply: posdefZ => //; exact: posdefD.
have leNM : \det N <= \det (schur (M : 'M_(1 + n))).
  apply: posdef_det_le => // y.
  have [t ->] := schur_eq y (pM : posdef (M : 'M_(1 + n))).
  rewrite /N /M !qformZ (qformD (schur _) (schur _)) (qformD A B).
  by rewrite ler_pM2l // lerD //; exact: schur_le.
have IH := IHn _ _ pSA pSB; rewrite -/N in IH.
have dN := posdef_det_gt0 pN.
have dSA := posdef_det_gt0 pSA.
have dSB := posdef_det_gt0 pSB.
have mE : M 0 0 = 2^-1 * (A 0 0 + B 0 0) by rewrite !mxE.
rewrite (@det_schur n A) ?(@det_schur n B) ?(@det_schur n M) ?gt_eqF //.
rewrite exprMn mulrACA; apply: ler_pM.
- by rewrite mulr_ge0 // ltW.
- by rewrite mulr_ge0 // ltW.
- rewrite mE -subr_ge0.
  have -> : (2^-1 * (A 0 0 + B 0 0)) ^+ 2 - A 0 0 * B 0 0 =
            (2^-1 * (A 0 0 - B 0 0)) ^+ 2 by field.
  exact: sqr_ge0.
apply: le_trans IH _.
rewrite ler_pXn2r ?nnegrE //; first exact: ltW.
exact: le_trans (ltW dN) leNM.
Qed.

Lemma posdef_inv_ge0 n (A : 'M[F]_n) x : posdef A -> 0 <= qform (invmx A) x.
Proof.
move=> pA; have uA := posdef_unit pA; case: (pA) => sA _.
have -> : qform (invmx A) x = qform A (x *m invmx A).
  by rewrite /qform trmx_mul trmx_inv sA mulmxKV // mulmxA.
exact: qform_ge0.
Qed.

Lemma posdef_mean n (A B : 'M[F]_n) :
  posdef A -> posdef B -> posdef (map_mx (fun c => c / 2) (A + B)).
Proof.
move=> pA pB.
have -> : map_mx (fun c => c / 2) (A + B) = 2^-1 *: (A + B).
  by apply/matrixP=> i j; rewrite !mxE mulrC.
by apply: posdefZ; [rewrite invr_gt0 ltr0n | exact: posdefD].
Qed.

Lemma posdef_det_mean n (A B : 'M[F]_n) :
  posdef A -> posdef B ->
  \det A * \det B <= \det (map_mx (fun c => c / 2) (A + B)) ^+ 2.
Proof.
move=> pA pB.
have -> : map_mx (fun c => c / 2) (A + B) = 2^-1 *: (A + B).
  by apply/matrixP=> i j; rewrite !mxE mulrC.
exact: posdef_det_mid.
Qed.

Lemma posdef1 n : posdef (1%:M : 'M[F]_n).
Proof.
split=> [|x x0]; first exact: trmx1.
rewrite /qform mulmx1 mxE.
have [j xj] : exists j, x 0 j != 0.
  apply/existsP; apply: contraNT x0; rewrite negb_exists => /forallP x0.
  by apply/eqP/rowP=> j; have /negPn/eqP -> := x0 j; rewrite mxE.
rewrite (bigD1 j) //= mxE -expr2 ltr_pwDl //.
  by rewrite exprn_even_gt0.
by apply: sumr_ge0 => k _; rewrite mxE -expr2 sqr_ge0.
Qed.

End PositiveDefinite.

(* ------------------------------------------------------------------------- *)
(** ** Real functions                                                         *)
(* ------------------------------------------------------------------------- *)

Lemma RleP (x y : R) : reflect (Rle x y) (x <= y).
Proof. exact: RealInstances.RlebP. Qed.

Lemma RltP (x y : R) : reflect (Rlt x y) (x < y).
Proof. exact: RealInstances.RltbP. Qed.

Lemma sqrt_ge0 (x : R) : 0 <= sqrt x.
Proof. exact/RleP/sqrt_pos. Qed.

Lemma sqrt_gt0 (x : R) : 0 < x -> 0 < sqrt x.
Proof. by move=> /RltP x0; apply/RltP; exact: sqrt_lt_R0. Qed.



Lemma sqrt0 : sqrt 0 = 0 :> R.
Proof. exact: sqrt_0. Qed.






Lemma quarter_root_gt0_R (a : R) : (0 < Rpower a (/ 4))%Re.
Proof. exact: exp_pos. Qed.




(* ------------------------------------------------------------------------- *)
(** ** The Hellinger distance of two components                               *)
(* ------------------------------------------------------------------------- *)

Lemma fmulC (a b : float) : fmul a b = fmul b a.
Proof. by case: a b => [x|] [y|] //; rewrite /fmul mulrC. Qed.

Section Hellinger.

Variable D : nat.
Implicit Types (c : 'M[R]_D) (m : 'rV[R]_D).

Lemma qformN (A : 'M[R]_D) (x : 'rV[R]_D) : qform A (- x) = qform A x.
Proof. by rewrite /qform mulNmx linearN /= mulmxN mulNmx opprK. Qed.


(** C8. The Hellinger distance is symmetric in its two components: swapping
    (covariance, mean) of the first with (covariance, mean) of the second
    gives the same outcome, on every input. *)
Theorem get_hellinger_distance_sym c1 m1 c2 m2 :
  get_hellinger_distance c1 m1 c2 m2 = get_hellinger_distance c2 m2 c1 m1.
Proof.
rewrite /get_hellinger_distance [c2 + c1]addrC.
case: np_linalg_inv => // mean_cov_inv; rewrite /bind.
rewrite [fmul (np_power (\det c2) _) _]fmulC.
by rewrite -/(qform _ (m2 - m1)) -(opprB m1 m2) qformN.
Qed.


End Hellinger.


(* ------------------------------------------------------------------------- *)
(** ** Loops, lists and dicts                                                 *)
(* ------------------------------------------------------------------------- *)

Lemma bindOk (A B : Type) (a : A) (k : A -> result B) : bind (Ok a) k = k a.
Proof. by []. Qed.

Section Loops.

Variables (A S T : Type).
Implicit Types (l : seq A) (body : A -> S -> result S) (s : S).

Lemma getitem_nth (x0 : T) (t : seq T) i :
  (i < size t)%N -> getitem t i = Ok (nth x0 t i).
Proof. by elim: t i => [|x t IH] [|i] //= /IH. Qed.





End Loops.


(** Filling an array cell by cell: the outcome of two nested loops whose
    body stores the value [c i j] at [(i, j)], unless [skip i j]. *)
Section Fill.

Variables (m n : nat) (skip : rel nat) (cv : nat -> nat -> result float).
Variable c : nat -> nat -> float.

Let body (i j : nat) (a : 'M[float]_(m, n)) : result 'M[float]_(m, n) :=
  if skip i j then Ok a else v <~ cv i j ;; Ok (setitem a i j v).

Lemma fill_row (i : nat) (js : seq nat) (a : 'M[float]_(m, n)) :
  (forall j, j \in js -> ~~ skip i j -> cv i j = Ok (c i j)) ->
  for_ js (body i) a =
  Ok (\matrix_(p, q)
        if [&& p == i :> nat, (q : nat) \in js & ~~ skip p q] then c p q
        else a p q).
Proof.
elim: js a => [|j js IH] a cvE /=.
  by congr Ok; apply/matrixP=> p q; rewrite mxE andbF.
have js_cvE k : k \in js -> ~~ skip i k -> cv i k = Ok (c i k).
  by move=> kjs; apply: cvE; rewrite inE kjs orbT.
rewrite {1}/body; case: ifPn => [sk|nsk].
  rewrite bindOk (IH _ js_cvE); congr Ok; apply/matrixP=> p q; rewrite !mxE inE.
  case: (p =P i :> nat) => //= pi; case: (q =P j :> nat) => //= qj.
  by rewrite pi qj sk andbF.
rewrite cvE ?mem_head //= (IH _ js_cvE).
congr Ok; apply/matrixP=> p q; rewrite !mxE inE.
case: (p =P i :> nat) => //= pi; case: (q =P j :> nat) => //= qj.
by rewrite pi qj nsk andbT if_same.
Qed.

Lemma fill_rows (rows js : seq nat) (a : 'M[float]_(m, n)) :
  (forall i j, i \in rows -> j \in js -> ~~ skip i j -> cv i j = Ok (c i j)) ->
  for_ rows (fun i => for_ js (body i)) a =
  Ok (\matrix_(p, q)
        if [&& (p : nat) \in rows, (q : nat) \in js & ~~ skip p q]
        then c p q else a p q).
Proof.
elim: rows a => [|i rows IH] a cvE /=.
  by congr Ok; apply/matrixP=> p q; rewrite mxE.
have rows_cvE k j :
    k \in rows -> j \in js -> ~~ skip k j -> cv k j = Ok (c k j).
  by move=> krows; apply: cvE; rewrite inE krows orbT.
have row_cvE j : j \in js -> ~~ skip i j -> cv i j = Ok (c i j).
  by apply: cvE; rewrite mem_head.
rewrite (fill_row _ row_cvE) /= (IH _ rows_cvE).
congr Ok; apply/matrixP=> p q; rewrite !mxE inE.
by case: (_ \in rows); case: (_ == _); case: (_ \in js); case: (skip _ _).
Qed.

End Fill.

(* ------------------------------------------------------------------------- *)
(** ** The exact assignment                                                   *)
(* ------------------------------------------------------------------------- *)

Section Assignment.

Lemma foldr_min_le (x0 : R) (s : seq R) x :
  x \in x0 :: s -> foldr Num.min x0 s <= x.
Proof.
elim: s => [|y s IH] /= in x *; first by rewrite inE => /eqP ->.
rewrite ge_min !inE => /or3P[/eqP ->|/eqP ->|xs].
- by rewrite IH ?mem_head ?orbT.
- by rewrite lexx.
- by rewrite IH ?orbT // inE xs orbT.
Qed.

Lemma foldr_min_in (x0 : R) (s : seq R) : foldr Num.min x0 s \in x0 :: s.
Proof.
elim: s => [|y s IH] /=; first by rewrite mem_head.
rewrite minEle; case: ifP => _; first by rewrite !inE eqxx orbT.
by move: IH; rewrite !inE => /orP[->|->]; rewrite ?orbT.
Qed.

Lemma min_seq_le (s : seq R) x : x \in s -> min_seq s <= x.
Proof. by case: s => // x0 s; exact: foldr_min_le. Qed.

Lemma min_seq_in (s : seq R) : s != [::] -> min_seq s \in s.
Proof. by case: s => // x0 s _; exact: foldr_min_in. Qed.

Variables (r c : nat) (C : 'M[R]_(r, c)).

Lemma matching_costsP x :
  reflect (exists2 f : {ffun 'I_r -> 'I_c},
             injective f & x = matching_cost C f)
          (x \in matching_costs C).
Proof.
apply: (iffP mapP) => [[f]|[f inj_f ->]].
  by rewrite mem_filter => /andP[/injectiveP inj_f _] ->; exists f.
by exists f => //; rewrite mem_filter mem_enum andbT; apply/injectiveP.
Qed.

Hypothesis le_rc : (r <= c)%N.

Lemma widen_matching_inj :
  injective [ffun i : 'I_r => widen_ord le_rc i].
Proof. by move=> i j; rewrite !ffunE => /(congr1 val) /= /val_inj. Qed.

(** The assignment cost is the cost of a matching ... *)
Lemma assignment_cost_attained :
  exists2 f : {ffun 'I_r -> 'I_c},
    injective f & assignment_cost C = matching_cost C f.
Proof.
apply/matching_costsP; rewrite /assignment_cost le_rc; apply: min_seq_in.
have /matching_costsP : exists2 f : {ffun 'I_r -> 'I_c}, injective f
    & matching_cost C [ffun i => widen_ord le_rc i] = matching_cost C f.
  by exists [ffun i => widen_ord le_rc i] => //; exact: widen_matching_inj.
by case: (matching_costs C).
Qed.

(** ... and no matching is cheaper. *)
Lemma assignment_cost_le (f : {ffun 'I_r -> 'I_c}) :
  injective f -> assignment_cost C <= matching_cost C f.
Proof.
move=> inj_f; rewrite /assignment_cost le_rc; apply: min_seq_le.
by apply/matching_costsP; exists f.
Qed.

End Assignment.

(* ------------------------------------------------------------------------- *)
(** ** The distance of two mixture models                                     *)
(* ------------------------------------------------------------------------- *)


Section Distance.

Variable D : nat.
Implicit Types g : GaussianMixture D.












End Distance.


(* ------------------------------------------------------------------------- *)
(** ** The component counts of the two models                                 *)
(* ------------------------------------------------------------------------- *)








(* ------------------------------------------------------------------------- *)
(** ** The one-to-many query                                                  *)
(* ------------------------------------------------------------------------- *)

Section Dicts.

Variable V : Type.
Implicit Types (d : dict V) (k : gene) (v : V).

Lemma dict_setitem_fresh d k v :
  k \notin keys d -> dict_setitem d k v = rcons d (k, v).
Proof.
elim: d => [|[k' v'] d IH] //=; rewrite inE negb_or eq_sym.
by case/andP=> /negPf -> kd; rewrite IH.
Qed.



End Dicts.



Section Compare.

Variable D : nat.
Implicit Types (gmm : GaussianMixture D) (gmm_dict : dict (GaussianMixture D)).

Let x0 : gene * GaussianMixture D :=
  (EmptyString, {| weights_ := [::]; means_ := [::]; covariances_ := [::] |}).



End Compare.

(* ------------------------------------------------------------------------- *)
(** ** The loop of the matrix builders                                        *)
(* ------------------------------------------------------------------------- *)

Lemma for_embed (A : eqType) (S S' : Type) (emb : S -> S') (l : seq A)
  (body : A -> S -> result S) (body' : A -> S' -> result S') (s : S) :
  (forall x, x \in l ->
     forall s, body' x (emb s) = (r <~ body x s ;; Ok (emb r))) ->
  for_ l body' (emb s) = (r <~ for_ l body s ;; Ok (emb r)).
Proof.
elim: l s => [|x l IH] s //= embE; rewrite embE ?mem_head //.
case: (body x s) => //= s1; apply: IH => y yl; apply: embE.
by rewrite inE yl orbT.
Qed.


Section Pairwise.

Variable gene_list : seq gene.
Hypothesis uniq_genes : uniq gene_list.

Let n := size gene_list.
Let g0 : gene := EmptyString.

Let frame (M : 'M[float]_(n, n)) : DataFrame :=
  {| index := gene_list; columns := gene_list; values := M |}.

Lemma loc_setitem_frame (M : 'M[float]_(n, n)) i j v :
  (i < n)%N -> (j < n)%N ->
  loc_setitem (frame M) (nth g0 gene_list i) (nth g0 gene_list j) v
  = frame (setitem M i j v).
Proof.
move=> ni nj; rewrite /loc_setitem /frame /=; congr Build_DataFrame.
apply/matrixP=> p q; rewrite !mxE !(tnth_nth g0) /=.
by rewrite !nth_uniq.
Qed.

Lemma iat_frame (M : 'M[float]_(n, n)) i j (ni : (i < n)%N) (nj : (j < n)%N) :
  iat (frame M) i j = Ok (M (Ordinal ni) (Ordinal nj)).
Proof.
rewrite /iat /= !insubT.
by congr (Ok (M _ _)); apply: val_inj.
Qed.

Variable distance_of : nat -> nat -> result float.
Variable dist : nat -> nat -> float.

Hypothesis distance_ofE :
  forall i j, (i < n)%N -> (j < n)%N -> i != j ->
    distance_of i j = Ok (dist i j).

Lemma pairwise_loop_ok :
  pairwise_loop gene_list distance_of (pd_DataFrame (Fin 0) gene_list gene_list)
  = Ok (frame (\matrix_(p, q) if p == q :> nat then Fin 0 else dist p q)).
Proof.
rewrite /pairwise_loop -/n.
pose body (i j : nat) (a : 'M[float]_(n, n)) :=
  if i == j then Ok a else v <~ distance_of i j ;; Ok (setitem a i j v).
set outer := (X in for_ _ X _).
have innerE i : i \in iota 0 n -> forall M,
    outer i (frame M) = (r <~ for_ (iota 0 n) (body i) M ;; Ok (frame r)).
  rewrite mem_iota add0n /= => ni M; rewrite /outer.
  set inner := (X in for_ _ X _).
  have cellE j : j \in iota 0 n -> forall a,
      inner j (frame a) = (r <~ body i j a ;; Ok (frame r)).
    rewrite mem_iota add0n /= => nj a; rewrite /inner /body.
    case: eqP => //= /eqP ij; rewrite distance_ofE //= !(getitem_nth g0) //=.
    by rewrite loc_setitem_frame.
  exact: (@for_embed _ _ _ frame _ (body i) inner M cellE).
have -> : pd_DataFrame (Fin 0) gene_list gene_list = frame (np_zeros n n).
  by [].
rewrite (@for_embed _ _ _ frame _ (fun i => for_ (iota 0 n) (body i)) outer
           _ innerE).
have distE i j : i \in iota 0 n -> j \in iota 0 n -> ~~ (i == j) ->
    distance_of i j = Ok (dist i j).
  by rewrite !mem_iota !add0n /=; exact: distance_ofE.
rewrite (fill_rows _ distE) bindOk; congr (Ok (frame _)).
apply/matrixP=> p q; rewrite !mxE !mem_iota !add0n /= !ltn_ord /=.
by case: eqP.
Qed.

End Pairwise.

Lemma pairwise_loop_matrix (gene_list : seq gene)
  (distance_of : nat -> nat -> result float)
  (metric : gene -> gene -> result float) :
  uniq gene_list ->
  (forall i j, (i < size gene_list)%N -> (j < size gene_list)%N -> i != j ->
     distance_of i j =
     metric (nth EmptyString gene_list i) (nth EmptyString gene_list j)) ->
  (forall g h, g \in gene_list -> h \in gene_list -> g != h ->
     exists d, metric g h = Ok d) ->
  is_distance_matrix gene_list metric
    (pairwise_loop gene_list distance_of
       (pd_DataFrame (Fin 0) gene_list gene_list)).
Proof.
move=> ug dE okd.
pose dist i j :=
  if metric (nth EmptyString gene_list i) (nth EmptyString gene_list j)
  is Ok d then d else NaN.
have distE i j : (i < size gene_list)%N -> (j < size gene_list)%N -> i != j ->
    distance_of i j = Ok (dist i j).
  move=> ni nj ij; rewrite dE // /dist.
  have [] := okd (nth EmptyString gene_list i) (nth EmptyString gene_list j).
  - exact: mem_nth.
  - exact: mem_nth.
  - by rewrite nth_uniq.
  by move=> d ->.
rewrite (pairwise_loop_ok ug distE); eexists; split; [by [] | by [] | by [] |].
move=> i j ni nj; rewrite (iat_frame _ ni nj) mxE /=.
by case: eqP => // /eqP ij; rewrite -dE // distE.
Qed.

(* ------------------------------------------------------------------------- *)
(** ** The matrix builders                                                    *)
(* ------------------------------------------------------------------------- *)

Lemma for_setitem (V : Type) (f : gene -> result V) (val : gene -> V)
  (gene_list : seq gene) (acc : dict V) :
  uniq (keys acc ++ gene_list) ->
  (forall g, g \in gene_list -> f g = Ok (val g)) ->
  for_ gene_list (fun g acc => v <~ f g ;; Ok (dict_setitem acc g v)) acc
  = Ok (acc ++ [seq (g, val g) | g <- gene_list]).
Proof.
elim: gene_list acc => [|g gl IH] acc /=; first by rewrite !cats0.
move=> uall fE; have := uall.
rewrite cat_uniq /= => /and3P[_ /norP[/negP ka _] _].
have kacc : g \notin keys acc by apply/negP=> kacc; apply: ka; rewrite kacc.
rewrite fE ?mem_head // !bindOk (dict_setitem_fresh _ kacc) IH -?cats1 -?catA //.
  by rewrite /keys /unzip1 map_cat -catA.
by move=> h hgl; apply: fE; rewrite inE hgl orbT.
Qed.

Lemma dict_getitem_map (V : Type) (val : gene -> V) (gene_list : seq gene) g :
  g \in gene_list ->
  dict_getitem [seq (h, val h) | h <- gene_list] g = Ok (val g).
Proof.
elim: gene_list => //= h gl IH; rewrite inE.
by case: (h =P g) => [-> //|/eqP]; rewrite eq_sym => /negPf -> /=.
Qed.

Lemma mse_ok (adata : AnnData)
  (a b : 'M[int]_(shape0 adata, shape1 adata)) :
  exists d, mse a b = Ok d.
Proof. by rewrite /mse /shape0 /shape1 /=; eexists. Qed.

Section BuildersFacts.

Variable D : nat.
Variable cosine : forall n : nat, 'rV[int]_n -> 'rV[int]_n -> float.

Let g0 : gene := EmptyString.

Lemma build_gmm_matrix (gmm_dict : dict (GaussianMixture D)) :
  uniq (keys gmm_dict) ->
  (forall g h, g \in keys gmm_dict -> h \in keys gmm_dict -> g != h ->
     exists d, gmm_metric gmm_dict g h = Ok d) ->
  is_distance_matrix (keys gmm_dict) (gmm_metric gmm_dict)
    (build_gmm_distance_array gmm_dict).
Proof.
move=> ug okd; apply: pairwise_loop_matrix => // i j ni nj ij.
by rewrite !(getitem_nth g0) // !bindOk.
Qed.

Lemma build_mix_matrix (adata : AnnData) (gmm_dict : dict (GaussianMixture D)) :
  uniq (keys gmm_dict) ->
  (forall g h, g \in keys gmm_dict -> h \in keys gmm_dict -> g != h ->
     exists d, mix_metric adata gmm_dict g h = Ok d) ->
  is_distance_matrix (keys gmm_dict) (mix_metric adata gmm_dict)
    (build_mix_distance_array adata gmm_dict).
Proof.
move=> ug okd; apply: pairwise_loop_matrix => // i j ni nj ij.
by rewrite !(getitem_nth g0) // !bindOk.
Qed.

Lemma build_ot_matrix (adata : AnnData) (gene_list : seq gene) :
  uniq gene_list ->
  (forall g h, g \in gene_list -> h \in gene_list -> g != h ->
     exists d, ot_metric adata g h = Ok d) ->
  is_distance_matrix gene_list (ot_metric adata)
    (build_ot_distance_array adata gene_list).
Proof.
move=> ug okd; apply: pairwise_loop_matrix => // i j ni nj ij.
by rewrite !(getitem_nth g0) // !bindOk.
Qed.

Lemma gene_arrays_ok (adata : AnnData) (gene_list : seq gene)
  (arr : gene -> 'M[int]_(shape0 adata, shape1 adata)) :
  uniq gene_list ->
  (forall g, g \in gene_list -> get_exp_array adata g false = Ok (arr g)) ->
  gene_arrays adata gene_list = Ok [seq (g, arr g) | g <- gene_list].
Proof. by move=> ug arrE; rewrite /gene_arrays (for_setitem _ arrE). Qed.

Lemma build_mse_matrix (adata : AnnData) (gene_list : seq gene) :
  uniq gene_list ->
  (forall g, g \in gene_list -> exists a, get_exp_array adata g false = Ok a) ->
  is_distance_matrix gene_list (mse_metric adata)
    (build_mse_distance_array adata gene_list).
Proof.
move=> ug oka.
pose arr g := if get_exp_array adata g false is Ok a then a else 0.
have arrE g : g \in gene_list -> get_exp_array adata g false = Ok (arr g).
  by move=> /oka[a aE]; rewrite /arr aE.
rewrite /build_mse_distance_array (gene_arrays_ok ug arrE) bindOk.
apply: pairwise_loop_matrix => // [i j ni nj ij|g h gin hin gh].
  have getE k : (k < size gene_list)%N ->
      dict_getitem [seq (g, arr g) | g <- gene_list] (nth g0 gene_list k)
      = Ok (arr (nth g0 gene_list k)).
    by move=> nk; rewrite dict_getitem_map ?mem_nth.
  do 4![rewrite ?(getitem_nth g0) ?getE // ?bindOk].
  by rewrite /mse_metric !arrE ?mem_nth // !bindOk.
by rewrite /mse_metric !arrE // !bindOk; exact: mse_ok.
Qed.

Lemma build_cosine_matrix (adata : AnnData) (gene_list : seq gene) :
  uniq gene_list ->
  (forall g, g \in gene_list -> exists a, get_exp_array adata g false = Ok a) ->
  is_distance_matrix gene_list (cosine_metric cosine adata)
    (build_cosine_similarity_array cosine adata gene_list).
Proof.
move=> ug oka.
pose arr g := if get_exp_array adata g false is Ok a then a else 0.
have arrE g : g \in gene_list -> get_exp_array adata g false = Ok (arr g).
  by move=> /oka[a aE]; rewrite /arr aE.
rewrite /build_cosine_similarity_array (gene_arrays_ok ug arrE) bindOk.
apply: pairwise_loop_matrix => // [i j ni nj ij|g h gin hin gh].
  have getE k : (k < size gene_list)%N ->
      dict_getitem [seq (g, arr g) | g <- gene_list] (nth g0 gene_list k)
      = Ok (arr (nth g0 gene_list k)).
    by move=> nk; rewrite dict_getitem_map ?mem_nth.
  do 4![rewrite ?(getitem_nth g0) ?getE // ?bindOk].
  by rewrite /cosine_metric !arrE ?mem_nth // !bindOk.
by rewrite /cosine_metric !arrE // !bindOk; eexists.
Qed.

(** C6. Each of the five builders returns a square frame labelled by the
    gene ids, in the given order, on both axes; its diagonal is 0 and its
    entry (i, j), i <> j, is the builder's metric applied to the genes i and
    j.  The gene ids are pairwise distinct (the keys of a mapping) and the
    metric is defined on the genes: every gene has a spatial array (cosine,
    MSE), every ordered pair of distinct genes has a distance (model-based,
    combined, transport-style). *)
Theorem builders_common_contract :
  [/\ forall gmm_dict : dict (GaussianMixture D),
        uniq (keys gmm_dict) ->
        (forall g h, g \in keys gmm_dict -> h \in keys gmm_dict -> g != h ->
           exists d, gmm_metric gmm_dict g h = Ok d) ->
        is_distance_matrix (keys gmm_dict) (gmm_metric gmm_dict)
          (build_gmm_distance_array gmm_dict),
      forall (adata : AnnData) (gene_list : seq gene),
        uniq gene_list ->
        (forall g, g \in gene_list ->
           exists a, get_exp_array adata g false = Ok a) ->
        is_distance_matrix gene_list (cosine_metric cosine adata)
          (build_cosine_similarity_array cosine adata gene_list),
      forall (adata : AnnData) (gene_list : seq gene),
        uniq gene_list ->
        (forall g, g \in gene_list ->
           exists a, get_exp_array adata g false = Ok a) ->
        is_distance_matrix gene_list (mse_metric adata)
          (build_mse_distance_array adata gene_list),
      forall (adata : AnnData) (gmm_dict : dict (GaussianMixture D)),
        uniq (keys gmm_dict) ->
        (forall g h, g \in keys gmm_dict -> h \in keys gmm_dict -> g != h ->
           exists d, mix_metric adata gmm_dict g h = Ok d) ->
        is_distance_matrix (keys gmm_dict) (mix_metric adata gmm_dict)
          (build_mix_distance_array adata gmm_dict)
    & forall (adata : AnnData) (gene_list : seq gene),
        uniq gene_list ->
        (forall g h, g \in gene_list -> h \in gene_list -> g != h ->
           exists d, ot_metric adata g h = Ok d) ->
        is_distance_matrix gene_list (ot_metric adata)
          (build_ot_distance_array adata gene_list)].
Proof.
split.
- exact: build_gmm_matrix.
- exact: build_cosine_matrix.
- exact: build_mse_matrix.
- exact: build_mix_matrix.
- exact: build_ot_matrix.
Qed.

End BuildersFacts.

(* ------------------------------------------------------------------------- *)
(** ** Spatial arrays and the transport-style metric                          *)
(* ------------------------------------------------------------------------- *)


Lemma get_exp_array_ok (adata : AnnData) (g : gene) (r : bool) :
  g \in var_names adata -> n_obs adata != 0%N ->
  exists a, get_exp_array adata g r = Ok a.
Proof.
move=> /tnthP[k gE] /negPf n0; rewrite /get_exp_array n0.
by case: pickP => [k' _|/(_ k)]; [eexists | rewrite gE eqxx].
Qed.








(** C5. For two distinct genes of the list, the entry (i, j) of the
    transport-style matrix is the least total cost of a one-to-one matching
    of the rows of the two genes' spatial arrays, the cost of matching row p
    of the first with row q of the second being their Euclidean distance:
    the all-pairs cost matrix, its exact assignment, and the sum of the
    matched costs. *)
Theorem build_ot_distance_array_entry (adata : AnnData) (gene_list : seq gene)
  (i j : nat) :
  uniq gene_list ->
  (forall g, g \in gene_list -> exists a, get_exp_array adata g false = Ok a) ->
  (i < size gene_list)%N -> (j < size gene_list)%N -> i != j ->
  exists (df : DataFrame) (arr_i arr_j : 'M[int]_(shape0 adata, shape1 adata))
         (d : R),
    [/\ build_ot_distance_array adata gene_list = Ok df,
        get_exp_array adata (nth EmptyString gene_list i) false = Ok arr_i,
        get_exp_array adata (nth EmptyString gene_list j) false = Ok arr_j,
        iat df i j = Ok (Fin d)
      & (exists2 f : {ffun 'I_(shape0 adata) -> 'I_(shape0 adata)},
           injective f
           & d = \sum_p sqrt (\sum_k ((arr_i p k)%:~R
                                       - (arr_j (f p) k)%:~R) ^+ 2))
        /\ forall f : {ffun 'I_(shape0 adata) -> 'I_(shape0 adata)},
             injective f ->
             d <= \sum_p sqrt (\sum_k ((arr_i p k)%:~R
                                        - (arr_j (f p) k)%:~R) ^+ 2)].
Proof.
move=> ug oka ni nj ij.
have okd g h : g \in gene_list -> h \in gene_list -> g != h ->
    exists d, ot_metric adata g h = Ok d.
  move=> /oka[a aE] /oka[b bE] _; rewrite /ot_metric aE bE !bindOk.
  by eexists.
have [df [dfE _ _ cells]] := build_ot_matrix ug okd.
have [ai aiE] := oka _ (mem_nth EmptyString ni).
have [aj ajE] := oka _ (mem_nth EmptyString nj).
have costE (f : {ffun 'I_(shape0 adata) -> 'I_(shape0 adata)}) :
    matching_cost (cdist ai aj) f
    = \sum_p sqrt (\sum_k ((ai p k)%:~R - (aj (f p) k)%:~R) ^+ 2).
  by apply: eq_bigr => p _; rewrite mxE.
exists df, ai, aj, (assignment_cost (cdist ai aj)); split=> //.
- by rewrite cells // (negPf ij) /ot_metric aiE ajE !bindOk.
- split=> [|f inj_f]; last by rewrite -costE; exact: assignment_cost_le.
  have [f inj_f ->] := assignment_cost_attained (cdist ai aj) (leqnn _).
  by exists f.
Qed.


(* ------------------------------------------------------------------------- *)
(** ** The theorems at concrete inputs                                        *)
(* ------------------------------------------------------------------------- *)







Lemma build_ot_distance_array_entry_witness :
  exists (df : DataFrame) (d : R),
    build_ot_distance_array adata_ex [:: "a"%string; "zero"%string] = Ok df
    /\ iat df 0 1 = Ok (Fin d).
Proof.
have n0 : n_obs adata_ex != 0%N by [].
have oka g : g \in [:: "a"%string; "zero"%string] ->
    exists a, get_exp_array adata_ex g false = Ok a.
  by rewrite !inE => /orP[] /eqP ->; exact: get_exp_array_ok.
have [df [ai [aj [d [dfE _ _ cell _]]]]] :=
  @build_ot_distance_array_entry adata_ex [:: "a"%string; "zero"%string]
    0 1 isT oka isT isT isT.
by exists df, d.
Defined.

(* ========================================================================= *)
(** * Further properties of the code                                          *)
(* ========================================================================= *)

(* ------------------------------------------------------------------------- *)
(** ** The Hellinger and the Bhattacharyya distance                           *)
(* ------------------------------------------------------------------------- *)


Lemma mean_cov_same (F : realFieldType) n (A : 'M[F]_n) :
  map_mx (fun x : F => x / 2) (A + A) = A.
Proof. by apply/matrixP=> i j; rewrite !mxE; field. Qed.



Section HellingerFacts.

Variable D : nat.
Implicit Types (c : 'M[R]_D) (m : 'rV[R]_D).

Lemma hellinger_cases c1 m1 c2 m2 :
  if \det (map_mx (fun x : R => x / 2) (c1 + c2)) == 0
  then get_hellinger_distance c1 m1 c2 m2 = Raise LinAlgError
  else exists v : float, get_hellinger_distance c1 m1 c2 m2 = Ok v.
Proof.
rewrite /get_hellinger_distance /np_linalg_inv unitmxE unitfE.
case: eqP => //= /eqP dM.
set num := fmul _ _.
rewrite /np_sqrt; case: ltP => [_|dM0].
  by case: num => [x|] /=; eexists.
have sq0 : sqrt (\det (map_mx (fun x : R => x / 2) (c1 + c2))) != 0.
  by rewrite gt_eqF // sqrt_gt0 // lt_def dM.
by rewrite /fdiv (negPf sq0) /=; eexists.
Qed.



(** X3. On matrices that are no covariances: when the mean of the two
    matrices is invertible and one of the three determinants is negative,
    the result is NaN and no exception is raised. *)
Theorem get_hellinger_distance_nan c1 m1 c2 m2 :
  \det (map_mx (fun x : R => x / 2) (c1 + c2)) != 0 ->
  [|| \det c1 < 0, \det c2 < 0
    | \det (map_mx (fun x : R => x / 2) (c1 + c2)) < 0] ->
  get_hellinger_distance c1 m1 c2 m2 = Ok NaN.
Proof.
rewrite /get_hellinger_distance /np_linalg_inv unitmxE unitfE.
set dM := \det _ => /= dM0 neg; rewrite dM0 /=.
have [dMneg|dMpos] := ltP dM 0.
  by case: (fmul _ _).
have sq0 : sqrt dM != 0 by rewrite gt_eqF // sqrt_gt0 // lt_def dM0.
have -> : fmul (np_power (\det c1) 4^-1) (np_power (\det c2) 4^-1) = NaN.
  move: neg; rewrite [dM < 0]ltNge dMpos orbF /np_power.
  by case/orP=> ->; rewrite //=; case: ifP => //; case: ifP.
by rewrite /= (negPf sq0).
Qed.


End HellingerFacts.


Lemma ln_ge0 (x : R) : 1 <= x -> 0 <= ln x.
Proof.
rewrite le_eqVlt => /orP[/eqP <-|/RltP x1]; apply/RleP.
  by move: ln_1 => ->; exact: Rle_refl.
by have := ln_increasing 1 x Rlt_0_1 x1; rewrite ln_1; exact: Rlt_le.
Qed.


Lemma sqrt_sqr_le (p m : R) : 0 < p -> 0 < m -> p <= m ^+ 2 -> sqrt p <= m.
Proof.
move=> /RltP p0 /RltP m0; rewrite expr2 => /RleP pm; apply/RleP.
have m0' : (0 <= m)%Re := Rlt_le _ _ m0.
by rewrite -(sqrt_square m m0'); exact: sqrt_le_1_alt.
Qed.


Section Bhattacharyya.

Variable D : nat.
Implicit Types (c : 'M[R]_D) (m : 'rV[R]_D).

(** The value of the distance on valid covariances. *)
Lemma bh_posdef c1 m1 c2 m2 :
  posdef c1 -> posdef c2 ->
  let M := map_mx (fun x : R => x / 2) (c1 + c2) in
  get_bh_distance c1 m1 c2 m2 =
  Ok (Finite (qform (invmx M) (m1 - m2) / 8
              + ln (\det M / sqrt (\det c1 * \det c2)) / 2)).
Proof.
move=> p1 p2 M; rewrite /get_bh_distance -/M.
have pM : posdef M := posdef_mean p1 p2.
have d1 := posdef_det_gt0 p1; have d2 := posdef_det_gt0 p2.
have dM := posdef_det_gt0 pM.
have d12 : 0 < \det c1 * \det c2 by rewrite mulr_gt0.
have s12 := sqrt_gt0 d12.
rewrite /np_linalg_inv (posdef_unit pM) /= ltNge (ltW d12) /=.
by rewrite (gt_eqF s12) /= divr_gt0 //= pnatr_eq0.
Qed.

(** X5. The Bhattacharyya distance is symmetric in its two components, on
    every input. *)
Theorem get_bh_distance_sym c1 m1 c2 m2 :
  get_bh_distance c1 m1 c2 m2 = get_bh_distance c2 m2 c1 m1.
Proof.
rewrite /get_bh_distance [c2 + c1]addrC [\det c2 * _]mulrC.
case: np_linalg_inv => // mean_cov_inv; rewrite /bind.
by rewrite -/(qform _ (m2 - m1)) -(opprB m1 m2) qformN.
Qed.

(** X6. On symmetric positive-definite covariances the Bhattacharyya
    distance is a finite non-negative number. *)
Theorem get_bh_distance_ge0 c1 m1 c2 m2 :
  posdef c1 -> posdef c2 ->
  exists b : R, get_bh_distance c1 m1 c2 m2 = Ok (Finite b) /\ 0 <= b.
Proof.
move=> p1 p2; rewrite bh_posdef //; eexists; split; first by [].
set M := map_mx _ _.
have pM : posdef M := posdef_mean p1 p2.
have d1 := posdef_det_gt0 p1; have d2 := posdef_det_gt0 p2.
have dM := posdef_det_gt0 pM.
have d12 : 0 < \det c1 * \det c2 by rewrite mulr_gt0.
apply: addr_ge0; first by rewrite divr_ge0 // posdef_inv_ge0.
rewrite divr_ge0 // ln_ge0 // ler_pdivlMr ?sqrt_gt0 // mul1r.
by rewrite sqrt_sqr_le // posdef_det_mean.
Qed.



(** X8. A degenerate component: when one of the two determinants is 0,
    neither is negative and the mean covariance has a positive determinant,
    [get_bh_distance] returns plus infinity and [get_hellinger_distance]
    returns 1; none raises. *)
Theorem degenerate_component c1 m1 c2 m2 :
  \det c1 * \det c2 = 0 -> 0 <= \det c1 -> 0 <= \det c2 ->
  0 < \det (map_mx (fun x : R => x / 2) (c1 + c2)) ->
  get_bh_distance c1 m1 c2 m2 = Ok PosInf
  /\ get_hellinger_distance c1 m1 c2 m2 = Ok (Fin 1).
Proof.
move=> d12 d1 d2 dM; have sM := sqrt_gt0 dM.
rewrite /get_bh_distance /get_hellinger_distance /np_linalg_inv.
rewrite unitmxE unitfE (gt_eqF dM) /= d12 ltxx sqrt0 eqxx /= dM /=.
rewrite ler0n /= (ltNge _ 0) (ltW dM) /=; split=> //.
have -> : fmul (np_power (\det c1) 4^-1) (np_power (\det c2) 4^-1) = Fin 0.
  rewrite /np_power !ltNge d1 d2 /=.
  move/eqP: d12; rewrite mulf_eq0 => /orP[] /eqP -> /=.
    by rewrite eqxx; case: ifP => _ /=; rewrite mul0r.
  by rewrite eqxx; case: ifP => _ /=; rewrite mulr0.
by rewrite /fdiv (gt_eqF sM) /= mul0r mulr0 subr0 normr1 ltr10 sqrt_1.
Qed.

End Bhattacharyya.

(* ------------------------------------------------------------------------- *)
(** ** Loops that raise                                                       *)
(* ------------------------------------------------------------------------- *)

Section LoopErrors.

Variables (A : eqType) (S : Type).
Implicit Types (l : seq A) (body : A -> S -> result S).

(** A loop whose body can only raise [e] can only raise [e] ... *)
Lemma for_ok_or_raise l body (e : exn) s :
  (forall x s, x \in l ->
     body x s = Raise e \/ exists s', body x s = Ok s') ->
  for_ l body s = Raise e \/ exists s', for_ l body s = Ok s'.
Proof.
elim: l s => [|x l IH] s bE /=; first by right; exists s.
have [->|[s' ->]] := bE x s (mem_head _ _); first by left.
by rewrite bindOk; apply: IH => y t yl; apply: bE; rewrite inE yl orbT.
Qed.

(** ... and it does raise [e] when the body raises at some element, whatever
    the state. *)
Lemma for_raises l body (e : exn) s x :
  (forall y s, y \in l ->
     body y s = Raise e \/ exists s', body y s = Ok s') ->
  x \in l -> (forall s, body x s = Raise e) ->
  for_ l body s = Raise e.
Proof.
elim: l s => [|y l IH] s //= bE; rewrite inE => xl xE.
have [->//|[s' ys]] := bE y s (mem_head _ _).
rewrite ys bindOk; case/orP: xl => [/eqP xy|xl].
  by move: ys; rewrite -xy xE.
by apply: IH => // z t zl; apply: bE; rewrite inE zl orbT.
Qed.

End LoopErrors.

(* ------------------------------------------------------------------------- *)
(** ** The assignment cost of a transposed matrix                             *)
(* ------------------------------------------------------------------------- *)

Section AssignmentFacts.

(** On a square matrix the matchings of the rows to the columns and of the
    columns to the rows are inverse of each other. *)
Lemma assignment_cost_tr (n : nat) (C : 'M[R]_n) :
  assignment_cost C^T = assignment_cost C.
Proof.
have half (A : 'M[R]_n) : assignment_cost A <= assignment_cost A^T.
  have [f inj_f ->] := assignment_cost_attained A^T (leqnn n).
  pose g := [ffun j => invF inj_f j].
  have inj_g : injective g.
    by move=> i j; rewrite !ffunE => /(can_inj (f_invF inj_f)).
  apply: le_trans (assignment_cost_le A (leqnn n) inj_g) _.
  rewrite /matching_cost (reindex_inj inj_f) /=.
  rewrite [X in X <= _](eq_bigr (fun i => A^T i (f i))) // => i _.
  by rewrite mxE ffunE invF_f.
by apply/eqP; rewrite eq_le half -{2}[C]trmxK half.
Qed.

Lemma assignment_cost_ge0 (r c : nat) (C : 'M[R]_(r, c)) :
  (r <= c)%N -> (forall i j, 0 <= C i j) -> 0 <= assignment_cost C.
Proof.
move=> rc C0; have [f _ ->] := assignment_cost_attained C rc.
by apply: sumr_ge0.
Qed.


End AssignmentFacts.

(* ------------------------------------------------------------------------- *)
(** ** The cost matrix and the distance of two models                         *)
(* ------------------------------------------------------------------------- *)


Section MixtureFacts.

Variable D : nat.
Implicit Types g : GaussianMixture D.








End MixtureFacts.

(** X13. No partial result: when the attributes of the models have
    consistent lengths and some pair (i, j) of components below K1 has a
    singular mean covariance, [distribution_distance] raises
    [LinAlgError]. *)
Theorem distribution_distance_singular (D : nat) (g1 g2 : GaussianMixture D)
  (i j : nat) :
  let K1 := size (weights_ g1) in
  size (means_ g1) = K1 -> size (covariances_ g1) = K1 ->
  (K1 <= size (weights_ g2))%N -> (K1 <= size (means_ g2))%N ->
  (K1 <= size (covariances_ g2))%N ->
  (i < K1)%N -> (j < K1)%N ->
  \det (map_mx (fun x : R => x / 2)
          (nth 0 (covariances_ g1) i + nth 0 (covariances_ g2) j)) = 0 ->
  distribution_distance g1 g2 = Raise LinAlgError.
Proof.
move=> K1 szm1 szc1 szw2 szm2 szc2 iK jK det0.
have cellE p q : (p < K1)%N -> (q < K1)%N ->
    cell_value g1 g2 p q =
    (hd <~ get_hellinger_distance
             (nth 0 (covariances_ g1) p) (nth 0 (means_ g1) p)
             (nth 0 (covariances_ g2) q) (nth 0 (means_ g2) q) ;;
     Ok (fmul (Fin (nth 0 (weights_ g1) p + nth 0 (weights_ g2) q)) hd)).
  move=> pK qK; rewrite /cell_value.
  rewrite (getitem_nth 0) ?szc1 // bindOk (getitem_nth 0) ?szm1 // bindOk.
  rewrite (getitem_nth 0) ?(leq_trans qK) // bindOk.
  rewrite (getitem_nth 0) ?(leq_trans qK) // bindOk.
  case: get_hellinger_distance => //= hd.
  by rewrite (getitem_nth 0) // bindOk (getitem_nth 0) ?(leq_trans qK).
have bodyE p q (a : 'M[float]_(K1, K1)) : p \in iota 0 K1 -> q \in iota 0 K1 ->
    distance_cell g1 g2 p q a = Raise LinAlgError
    \/ exists a', distance_cell g1 g2 p q a = Ok a'.
  rewrite !mem_iota !add0n /= => pK qK; rewrite /distance_cell cellE //.
  have := hellinger_cases (nth 0 (covariances_ g1) p) (nth 0 (means_ g1) p)
    (nth 0 (covariances_ g2) q) (nth 0 (means_ g2) q).
  by case: ifP => _ => [->|[v ->]]; [left | right; eexists].
have arrE : distance_array g1 g2 = Raise LinAlgError.
  apply: (@for_raises _ _ _ _ _ _ i); last 1 first.
  - move=> a; apply: (@for_raises _ _ _ _ _ _ j) => [q b qK||b].
    + by apply: bodyE => //; rewrite mem_iota add0n.
    + by rewrite mem_iota add0n.
    rewrite /distance_cell cellE //.
    have := hellinger_cases (nth 0 (covariances_ g1) i) (nth 0 (means_ g1) i)
      (nth 0 (covariances_ g2) j) (nth 0 (means_ g2) j).
    by rewrite det0 eqxx => ->.
  - by move=> p a pK; apply: for_ok_or_raise => q b qK; exact: bodyE.
  - by rewrite mem_iota add0n.
by rewrite /distribution_distance arrE.
Qed.

(* ------------------------------------------------------------------------- *)
(** ** Rounding and the spatial array of a gene                               *)
(* ------------------------------------------------------------------------- *)

(** Stdlib's injections of the integers into [R] and MathComp's. *)
Lemma natr_INR (n : nat) : n%:R = INR n :> R.
Proof.
elim: n => [//|n IH]; rewrite -addn1 natrD IH plus_INR /=.
by [].
Qed.

Lemma int_of_ZK (z : Z) : (int_of_Z z)%:~R = IZR z :> R.
Proof.
case: z => [|p|p]; rewrite /int_of_Z.
- by rewrite mulr0z.
- by rewrite -pmulrn natr_INR INR_IPR.
have p0 : (0 < Pos.to_nat p)%N by apply/ssrnat.ltP; exact: Pos2Nat.is_pos.
by rewrite NegzE prednK // mulrNz -pmulrn natr_INR INR_IPR.
Qed.

Lemma int_of_Z_surj (n : int) : exists z : Z, int_of_Z z = n.
Proof.
case: n => [[|m]|m].
- by exists Z0.
- by exists (Zpos (Pos.of_succ_nat m)); rewrite /= SuccNat2Pos.id_succ.
- by exists (Zneg (Pos.of_succ_nat m)); rewrite /= SuccNat2Pos.id_succ.
Qed.

Lemma floor_IZR (z : Z) : floor (IZR z) = int_of_Z z.
Proof.
rewrite /floor; have <- : Z.succ z = up (IZR z).
  by apply: tech_up; rewrite succ_IZR; Lra.lra.
by rewrite Z.pred_succ.
Qed.

Lemma floor_int (n : int) : floor n%:~R = n.
Proof. by have [z <-] := int_of_Z_surj n; rewrite int_of_ZK floor_IZR. Qed.

Lemma np_round_int (n : int) : np_round n%:~R = n.
Proof. by rewrite /np_round floor_int subrr invr_gt0 ltr0n. Qed.

Lemma astype_int32_int (n : int) :
  INT32_MIN <= n < 2 ^+ 31 -> astype_int32 (Fin n%:~R) = n.
Proof. by rewrite /astype_int32 np_round_int => ->. Qed.

Lemma astype_int32_0 : astype_int32 (Fin 0) = 0.
Proof.
apply: (astype_int32_int (n := 0)).
by rewrite /INT32_MIN oppr_le0 !exprn_gt0 // exprn_ge0.
Qed.

(** The floor of [x] is at most [x] and less than 1 below it, so that
    rounding a non-negative number gives a non-negative integer. *)
Lemma floor_bounds (x : R) : (floor x)%:~R <= x < (floor x)%:~R + 1.
Proof.
rewrite /floor int_of_ZK -Z.sub_1_r minus_IZR.
have [/RltP ux /RleP ux1] := archimed x.
apply/andP; split; first by rewrite lerBlDr -lerBlDl.
by rewrite subrK.
Qed.

Lemma np_round_ge0 (x : R) : 0 <= x -> 0 <= np_round x.
Proof.
move=> x0; have /andP[_ xf] := floor_bounds x.
have f0 : 0 <= floor x.
  rewrite -ltzD1 -(ltr_int R) rmorphD /= (le_lt_trans x0) //.
have f1 : 0 <= floor x + 1 by rewrite addr_ge0.
by rewrite /np_round; do 3![case: ifP => _ //].
Qed.

Lemma astype_int32_ge0 (x : R) :
  0 <= x -> 0 <= astype_int32 (Fin x) \/ astype_int32 (Fin x) = INT32_MIN.
Proof.
move=> x0; rewrite /astype_int32; case: ifP => _; last by right.
by left; exact: np_round_ge0.
Qed.

Lemma low_exp_cell (c m : R) :
  np_maximum (fsub (Fin c) (Fin m)) (Fin 0) = Fin (Num.max (c - m) 0).
Proof. by []. Qed.

(** The mean of the nonzero cells is a number as soon as one cell is not
    0. *)
Lemma nonzero_mean_fin (h w : nat) (a : 'M[R]_(h, w)) x y :
  a x y != 0 -> exists m : R, nonzero_mean a = Fin m.
Proof.
move=> axy; rewrite /nonzero_mean.
set selected := [seq _ | ij <- _ & _].
have : a x y \in selected.
  apply/mapP; exists (x, y) => //.
  by rewrite mem_filter /= axy mem_enum.
by case: selected => // c s _; eexists.
Qed.

Section SpatialArrays.

Variable adata : AnnData.

(** X14. The outcome of [get_exp_array], whatever the flag: [IndexError]
    for a gene that is not in the dataset, [ValueError] for a dataset
    without spots, an array otherwise. *)
Theorem get_exp_array_outcome (g : gene) (r : bool) :
  if g \notin var_names adata then get_exp_array adata g r = Raise IndexError
  else if n_obs adata == 0%N then get_exp_array adata g r = Raise ValueError
  else exists a, get_exp_array adata g r = Ok a.
Proof.
rewrite /get_exp_array; case: pickP => [k /eqP kg|nog].
  have -> /= : g \in var_names adata by apply/tnthP; exists k.
  by case: (n_obs adata == 0%N) => //; eexists.
case: tnthP => [[k gk]|//].
by have := nog k; rewrite gk eqxx.
Qed.

(** The cell of a spot, and a cell without spot. *)
Lemma coo_todense_spot (data : 'cV[R]_(n_obs adata)) s
  (x : 'I_(shape0 adata)) (y : 'I_(shape1 adata)) :
  injective (fun s => (tnth (obs_x adata) s, tnth (obs_y adata) s)) ->
  x = tnth (obs_x adata) s :> nat -> y = tnth (obs_y adata) s :> nat ->
  coo_todense data x y = data s 0.
Proof.
move=> inj_xy xs ys.
have sP : (tnth (obs_x adata) s == x :> nat)
          && (tnth (obs_y adata) s == y :> nat).
  by rewrite xs ys !eqxx.
rewrite mxE (bigD1 s sP) /=.
rewrite big1 ?addr0 // => t /andP[/andP[/eqP tx /eqP ty]].
by case/eqP; apply: inj_xy; rewrite tx ty -xs -ys.
Qed.

Lemma coo_todense_empty (data : 'cV[R]_(n_obs adata))
  (x : 'I_(shape0 adata)) (y : 'I_(shape1 adata)) :
  (forall s, (tnth (obs_x adata) s, tnth (obs_y adata) s)
             != (x : nat, y : nat)) ->
  coo_todense data x y = 0.
Proof.
move=> noxy; rewrite mxE big_pred0 // => s.
apply/negP => /andP[/eqP sx /eqP sy].
by have := noxy s; rewrite sx sy eqxx.
Qed.

(** X15. Without [remove_low_exp_spots], on spots with pairwise distinct
    coordinates: the cell at the coordinates of a spot holds the int32
    conversion of the expression of the gene at that spot (the value itself
    when it is an integer of the int32 range), and a cell without spot
    holds 0. *)
Theorem get_exp_array_cells (g : gene) :
  n_obs adata != 0%N -> g \in var_names adata ->
  injective (fun s => (tnth (obs_x adata) s, tnth (obs_y adata) s)) ->
  exists (k : 'I_(n_vars adata)) (a : 'M[int]_(shape0 adata, shape1 adata)),
    [/\ tnth (var_names adata) k = g,
        get_exp_array adata g false = Ok a,
        forall s (x : 'I_(shape0 adata)) (y : 'I_(shape1 adata)),
          x = tnth (obs_x adata) s :> nat -> y = tnth (obs_y adata) s :> nat ->
          a x y = astype_int32 (Fin (X adata s k))
          /\ forall n : int, X adata s k = n%:~R ->
               INT32_MIN <= n < 2 ^+ 31 -> a x y = n
      & forall (x : 'I_(shape0 adata)) (y : 'I_(shape1 adata)),
          (forall s, (tnth (obs_x adata) s, tnth (obs_y adata) s)
                     != (x : nat, y : nat)) ->
          a x y = 0].
Proof.
move=> /negPf n0 /tnthP[k0 gE] inj_xy; rewrite /get_exp_array n0.
case: pickP => [k /eqP kg|/(_ k0)]; last by rewrite gE eqxx.
exists k; eexists; split; [by [] | by [] | |].
  move=> s x y xs ys; rewrite 2!mxE (coo_todense_spot _ inj_xy xs ys) mxE.
  by split=> // n ->; exact: astype_int32_int.
by move=> x y noxy; rewrite 2!mxE coo_todense_empty // astype_int32_0.
Qed.

(** X16. With [remove_low_exp_spots], for a gene with a nonzero cell: the
    mean of the nonzero cells is a number, every cell whose value is at most
    that mean becomes 0, and no cell is negative, the conversion of a value
    beyond the int32 range apart. *)
Theorem get_exp_array_low_spots (g : gene) :
  n_obs adata != 0%N -> g \in var_names adata ->
  exists k : 'I_(n_vars adata),
    tnth (var_names adata) k = g
    /\ forall x0 y0, coo_todense (col k (X adata)) x0 y0 != 0 ->
       exists (m : R) (a : 'M[int]_(shape0 adata, shape1 adata)),
         [/\ nonzero_mean (coo_todense (col k (X adata))) = Fin m,
             get_exp_array adata g true = Ok a,
             forall x y,
               coo_todense (col k (X adata)) x y <= m -> a x y = 0
           & forall x y, 0 <= a x y \/ a x y = INT32_MIN].
Proof.
move=> /negPf n0 /tnthP[k0 gE]; rewrite /get_exp_array n0.
case: pickP => [k /eqP kg|/(_ k0)]; last by rewrite gE eqxx.
exists k; split=> // x0 y0 /nonzero_mean_fin[m mE].
exists m; rewrite mE; eexists; split; [by [] | by [] | |].
  move=> x y le_m; rewrite 2!mxE low_exp_cell.
  by rewrite max_r ?astype_int32_0 // subr_le0.
move=> x y; rewrite 2!mxE low_exp_cell; apply: astype_int32_ge0.
by rewrite le_max lexx orbT.
Qed.

End SpatialArrays.

(* ------------------------------------------------------------------------- *)
(** ** The mean squared error of two spatial arrays                           *)
(* ------------------------------------------------------------------------- *)

(** [wrap32] picks the representative of the class modulo 2^32 that lies in
    the int32 range.  The two powers of 2 are kept abstract in the proofs. *)
Lemma wrap32_mod (z : int) : (wrap32 z = z %[mod 2 ^+ 32])%Z.
Proof.
rewrite /wrap32; move: (2 ^+ 31) (2 ^+ 32) => H W.
by rewrite modzDml addrK.
Qed.

Lemma wrap32_eqm (z z' : int) :
  (z = z' %[mod 2 ^+ 32])%Z -> wrap32 z = wrap32 z'.
Proof.
rewrite /wrap32; move: (2 ^+ 31) (2 ^+ 32) => H W e.
by rewrite -modzDml e modzDml.
Qed.

Lemma wrap32_sqr (x : int) : wrap32 (wrap32 x ^+ 2) = wrap32 (x ^+ 2).
Proof.
apply: wrap32_eqm; have := wrap32_mod x; move: (2 ^+ 32) (wrap32 x) => W y e.
by rewrite -modzXm e modzXm.
Qed.

Lemma wrap32_small (z : int) : - 2 ^+ 31 <= z < 2 ^+ 31 -> wrap32 z = z.
Proof.
rewrite /wrap32 (exprSr (2 : int) 31); move: (2 ^+ 31) => H /andP[lo hi].
rewrite modz_small ?addrK // mulr_natr mulr2n ltrD2r hi andbT.
by rewrite -lerBlDr sub0r.
Qed.

Lemma wrap32_0 : wrap32 0 = 0.
Proof.
apply: wrap32_small; move: (exprn_gt0 31 (ltr0n int 2)).
by move: (2 ^+ 31) => H H0; rewrite oppr_le0 H0 ltW.
Qed.

Section MeanSquare.

Variables h w : nat.
Implicit Types a b : 'M[int]_(h, w).

(** The two wrap-arounds of [mse] amount to one, of the exact square. *)
Lemma mseE a b :
  mse a b =
  if (h * w == 0)%N then Raise ZeroDivisionError
  else Ok (Fin ((\sum_p \sum_q (wrap32 ((a p q - b p q) ^+ 2))%:~R)
                / (h * w)%:R)).
Proof.
rewrite /mse; case: ifP => // _; congr (Ok (Fin (_ / _))).
apply: eq_bigr => p _; apply: eq_bigr => q _.
by rewrite mxE wrap32_sqr.
Qed.

(** X17. [mse] is symmetric, the wrap-around of the int32 difference and
    square included. *)
Theorem mse_sym a b : mse a b = mse b a.
Proof.
rewrite !mseE; case: ifP => // _; congr (Ok (Fin (_ / _))).
apply: eq_bigr => p _; apply: eq_bigr => q _.
by rewrite -sqrrN opprB.
Qed.



End MeanSquare.

(* ------------------------------------------------------------------------- *)
(** ** The matrices over spatial arrays                                       *)
(* ------------------------------------------------------------------------- *)

Section CostMatrices.

Variables h w : nat.
Implicit Types a b : 'M[int]_(h, w).

Lemma cdist_tr a b : cdist b a = (cdist a b)^T.
Proof.
apply/matrixP=> p q; rewrite !mxE; congr sqrt.
by apply: eq_bigr => k _; rewrite -sqrrN opprB.
Qed.

Lemma cdist_ge0 a b p q : 0 <= cdist a b p q.
Proof. by rewrite mxE sqrt_ge0. Qed.


Lemma ot_cost_sym a b :
  assignment_cost (cdist b a) = assignment_cost (cdist a b).
Proof. by rewrite cdist_tr assignment_cost_tr. Qed.

Lemma ot_cost_ge0 a b : 0 <= assignment_cost (cdist a b).
Proof. by apply: assignment_cost_ge0 => // p q; exact: cdist_ge0. Qed.


End CostMatrices.

(** On a dataset with spots, [get_exp_array] fails on the unknown genes
    only. *)
Lemma get_exp_array_cases (adata : AnnData) (g : gene) (r : bool) :
  n_obs adata != 0%N ->
  if g \in var_names adata then exists a, get_exp_array adata g r = Ok a
  else get_exp_array adata g r = Raise IndexError.
Proof.
move=> n0; case: ifP => [gin|/negP nog]; first exact: get_exp_array_ok.
rewrite /get_exp_array; case: pickP => // k /eqP kg.
by case: nog; apply/tnthP; exists k.
Qed.

(** The loop of the builders raises [e] when the distance of the position
    [u] to every other position raises [e] and no distance raises anything
    else: some cell of the row [u] is computed as soon as there are two
    genes. *)
Lemma pairwise_loop_raises (gene_list : seq gene)
  (distance_of : nat -> nat -> result float) (e : exn) (u : nat)
  (df : DataFrame) :
  (1 < size gene_list)%N -> (u < size gene_list)%N ->
  (forall i j, (i < size gene_list)%N -> (j < size gene_list)%N -> i != j ->
     distance_of i j = Raise e \/ exists d, distance_of i j = Ok d) ->
  (forall j, (j < size gene_list)%N -> j != u -> distance_of u j = Raise e) ->
  pairwise_loop gene_list distance_of df = Raise e.
Proof.
move=> n2 un okd uE; rewrite /pairwise_loop.
set n := size gene_list in n2 un okd uE *.
pose inner i j (distance_array : DataFrame) : result DataFrame :=
  if i != j then
    distance <~ distance_of i j ;;
    gi <~ getitem gene_list i ;;
    gj <~ getitem gene_list j ;;
    Ok (loc_setitem distance_array gi gj distance)
  else Ok distance_array.
rewrite -[LHS]/(for_ (iota 0 n) (fun i => for_ (iota 0 n) (inner i)) df).
have cellE i j s : i \in iota 0 n -> j \in iota 0 n ->
    inner i j s = Raise e \/ exists s', inner i j s = Ok s'.
  rewrite !mem_iota !add0n /= => ni nj; rewrite /inner.
  case: eqP => [_|/eqP ij] /=; first by right; exists s.
  have [->|[d ->]] := okd i j ni nj ij; first by left.
  by rewrite bindOk !(getitem_nth EmptyString) // !bindOk; right; eexists.
pose j0 := if u == 0%N then 1%N else 0%N.
have j0n : j0 \in iota 0 n.
  by rewrite mem_iota add0n /= /j0; case: ifP => _ //; exact: ltnW.
have j0u : j0 != u.
  by rewrite /j0; case: (u =P 0%N) => [->|/eqP u0] //; rewrite eq_sym.
apply: (@for_raises _ _ _ _ _ _ u); last 1 first.
- move=> s; apply: (@for_raises _ _ _ _ _ _ j0) => // [j t jn|t].
    by apply: cellE => //; rewrite mem_iota add0n.
  rewrite /inner eq_sym j0u uE //.
  by move: j0n; rewrite mem_iota add0n.
- by move=> i s ni; apply: for_ok_or_raise => j t jn; exact: cellE.
- by rewrite mem_iota add0n.
Qed.

Section BuilderFacts.

Variable adata : AnnData.
Variable gene_list : seq gene.

Let g0 : gene := EmptyString.

Lemma ot_metric_ok :
  (forall g, g \in gene_list -> exists a, get_exp_array adata g false = Ok a) ->
  forall g h, g \in gene_list -> h \in gene_list -> g != h ->
  exists d, ot_metric adata g h = Ok d.
Proof.
move=> oka g h /oka[a aE] /oka[b bE] _; rewrite /ot_metric aE bE !bindOk.
by eexists.
Qed.

(** X20. The transport-style matrix is symmetric and its entries are
    non-negative numbers. *)
Theorem build_ot_distance_array_sym :
  uniq gene_list ->
  (forall g, g \in gene_list -> exists a, get_exp_array adata g false = Ok a) ->
  exists df : DataFrame,
    build_ot_distance_array adata gene_list = Ok df
    /\ forall i j, (i < size gene_list)%N -> (j < size gene_list)%N ->
       exists2 d : R,
         iat df i j = Ok (Fin d) /\ iat df j i = Ok (Fin d) & 0 <= d.
Proof.
move=> ug oka.
have [df [dfE _ _ cells]] := build_ot_matrix ug (ot_metric_ok oka).
exists df; split=> // i j ni nj; rewrite !cells // [j == i]eq_sym.
case: eqP => _; first by exists 0.
have [ai aiE] := oka _ (mem_nth g0 ni); have [aj ajE] := oka _ (mem_nth g0 nj).
rewrite /ot_metric -/g0 aiE ajE !bindOk.
by exists (assignment_cost (cdist ai aj)); rewrite ?ot_cost_ge0 // ot_cost_sym.
Qed.


(** X22. The MSE matrix is symmetric, and its entry for two genes with
    the same spatial array is 0. *)
Theorem build_mse_distance_array_sym :
  uniq gene_list ->
  (forall g, g \in gene_list -> exists a, get_exp_array adata g false = Ok a) ->
  exists df : DataFrame,
    build_mse_distance_array adata gene_list = Ok df
    /\ forall i j, (i < size gene_list)%N -> (j < size gene_list)%N ->
       exists v : float,
         [/\ iat df i j = Ok v, iat df j i = Ok v
           & get_exp_array adata (nth EmptyString gene_list i) false
             = get_exp_array adata (nth EmptyString gene_list j) false ->
             v = Fin 0].
Proof.
move=> ug oka.
have [df [dfE _ _ cells]] := build_mse_matrix ug oka.
exists df; split=> // i j ni nj; rewrite !cells // [j == i]eq_sym.
case: eqP => _; first by exists (Fin 0).
have [ai aiE] := oka _ (mem_nth g0 ni); have [aj ajE] := oka _ (mem_nth g0 nj).
rewrite /mse_metric -/g0 aiE ajE !bindOk [mse aj ai]mseE mseE.
have -> : (shape0 adata * shape1 adata == 0)%N = false by [].
eexists; split; first by [].
  congr (Ok (Fin (_ / _))); apply: eq_bigr => p _; apply: eq_bigr => q _.
  by rewrite -sqrrN opprB.
case=> <-; congr Fin; rewrite big1 ?mul0r // => p _; rewrite big1 // => q _.
by rewrite subrr expr0n wrap32_0.
Qed.

(** X23. When a gene of the list is not in the dataset, the cosine and the
    MSE builders raise [IndexError] while the spatial arrays are computed,
    before any matrix is built. *)
Theorem build_arrays_unknown_gene
  (cosine : forall n : nat, 'rV[int]_n -> 'rV[int]_n -> float) (g : gene) :
  n_obs adata != 0%N -> g \in gene_list -> g \notin var_names adata ->
  build_mse_distance_array adata gene_list = Raise IndexError
  /\ build_cosine_similarity_array cosine adata gene_list = Raise IndexError.
Proof.
move=> n0 gl nog.
have arrE : gene_arrays adata gene_list = Raise IndexError.
  apply: (@for_raises _ _ _ _ _ _ g) => // [h acc _|acc].
    have := get_exp_array_cases h false n0.
    by case: ifP => _ => [[a ->]|->]; [right; eexists | left].
  have := get_exp_array_cases g false n0.
  by rewrite (negPf nog) => ->.
by rewrite /build_mse_distance_array /build_cosine_similarity_array arrE.
Qed.

(** X24. When a gene of the list is not in the dataset, the
    transport-style builder raises [IndexError] as soon as the list has two
    genes; on a list of one gene no array is computed and the 1 x 1 zero
    matrix is returned, the gene being unknown or not. *)
Theorem build_ot_distance_array_unknown (g : gene) :
  n_obs adata != 0%N -> g \in gene_list -> g \notin var_names adata ->
  build_ot_distance_array adata gene_list
  = if (size gene_list <= 1)%N
    then Ok (pd_DataFrame (Fin 0) gene_list gene_list)
    else Raise IndexError.
Proof.
move=> n0 gl nog; case: leqP => [n1|n2].
  by case: gene_list gl n1 => [|h [|? ?]].
have un : (seq.index g gene_list < size gene_list)%N by rewrite index_mem.
apply: (@pairwise_loop_raises gene_list _ IndexError _ _ n2 un)
  => [i j ni nj ij|j nj ju].
  rewrite !(getitem_nth g0) // !bindOk.
  have := get_exp_array_cases (nth g0 gene_list i) false n0.
  case: ifP => _ => [[ai ->]|->]; last by left.
  rewrite !bindOk.
  have := get_exp_array_cases (nth g0 gene_list j) false n0.
  by case: ifP => _ => [[aj ->]|->]; [right; eexists | left].
rewrite !(getitem_nth g0) // !bindOk nth_index //.
have := get_exp_array_cases g false n0.
by rewrite (negPf nog) => ->.
Qed.

End BuilderFacts.

(* ------------------------------------------------------------------------- *)
(** ** The matrices over models and the one-to-many query                     *)
(* ------------------------------------------------------------------------- *)

Section ModelBuilders.

Variable D : nat.
Implicit Types (gmm : GaussianMixture D) (gmm_dict : dict (GaussianMixture D)).

Let x0 : gene * GaussianMixture D :=
  (EmptyString, {| weights_ := [::]; means_ := [::]; covariances_ := [::] |}).








End ModelBuilders.

(* ------------------------------------------------------------------------- *)
(** ** Plot/plot.py: array adjustment and the grid of axes                    *)
(* ------------------------------------------------------------------------- *)

Section ArrayFlipFacts.

Variable T : Type.
Variables h w : nat.
Implicit Types m arr : 'M[T]_(h, w).

Lemma np_flipudK m : np_flipud (np_flipud m) = m.
Proof. by apply/matrixP=> i j; rewrite !mxE rev_ordK. Qed.

Lemma np_fliplrK m : np_fliplr (np_fliplr m) = m.
Proof. by apply/matrixP=> i j; rewrite !mxE rev_ordK. Qed.

Lemma np_flipC m : np_fliplr (np_flipud m) = np_flipud (np_fliplr m).
Proof. by apply/matrixP=> i j; rewrite !mxE. Qed.

(** X28. Without rotation, [_adjust_arr] is an involution: the same
    reversals applied twice give the array back.  Reversing both axes is
    the same as two quarter turns. *)
Theorem adjust_arr_involution arr (reverse_x reverse_y : bool) :
  _adjust_arr (_adjust_arr arr false reverse_x reverse_y)
              false reverse_x reverse_y = arr
  /\ _adjust_arr arr false true true = np_rot90 (np_rot90 arr).
Proof.
split; last by apply/matrixP=> i j; rewrite !mxE.
rewrite /_adjust_arr /=; case: reverse_x; case: reverse_y => //.
- by rewrite -np_flipC np_fliplrK np_flipudK.
- exact: np_fliplrK.
- exact: np_flipudK.
Qed.

End ArrayFlipFacts.

(** X29. [_adjust_arr] only moves cells: whatever the flags, the sum of
    the cells is unchanged. *)
Theorem adjust_arr_sum (V : zmodType) (h w : nat) (arr : 'M[V]_(h, w))
  (rotate reverse_x reverse_y : bool) :
  \sum_i \sum_j _adjust_arr arr rotate reverse_x reverse_y i j
  = \sum_i \sum_j arr i j.
Proof.
have ud m n (a : 'M[V]_(m, n)) :
    \sum_i \sum_j np_flipud a i j = \sum_i \sum_j a i j.
  rewrite [RHS](reindex_inj rev_ord_inj) /=.
  by apply: eq_bigr => i _; apply: eq_bigr => j _; rewrite mxE.
have lr m n (a : 'M[V]_(m, n)) :
    \sum_i \sum_j np_fliplr a i j = \sum_i \sum_j a i j.
  apply: eq_bigr => i _; rewrite [RHS](reindex_inj rev_ord_inj) /=.
  by apply: eq_bigr => j _; rewrite mxE.
have rot : \sum_i \sum_j np_rot90 arr i j = \sum_i \sum_j arr i j.
  rewrite exchange_big /=; apply: eq_bigr => i _.
  rewrite [RHS](reindex_inj rev_ord_inj) /=.
  by apply: eq_bigr => j _; rewrite mxE.
rewrite /_adjust_arr.
by case: rotate; case: reverse_x; case: reverse_y; rewrite ?lr ?ud ?rot.
Qed.

(** [num_rows] rows of [c] columns hold [n] figures, and no row is
    superfluous. *)
Lemma ceil_div_ge (n c : nat) : (0 < c)%N -> (n <= (n + c - 1) %/ c * c)%N.
Proof.
move=> c0; have := ltn_ceil (n + c - 1) c0.
rewrite mulSn [(c + _)%N]addnC subn1 -ltnS prednK ?ltnS ?leq_add2r //.
by rewrite addn_gt0 c0 orbT.
Qed.

Lemma ceil_div_le (n c : nat) :
  (0 < n)%N -> (0 < c)%N -> ((n + c - 1) %/ c <= n)%N.
Proof.
move=> n0 c0; rewrite -ltnS ltn_divLR //.
apply: (@leq_trans (n + c)%N); first by rewrite subn1 prednK // addn_gt0 n0.
by rewrite mulSn addnC leq_add2l leq_pmulr.
Qed.

(** X30. The grid of [_get_figure] has an axis for every figure: unless
    there is no figure, no column, or one figure in one column (the three
    cases in which the call fails), the axes are returned and the [i]-th
    figure, [i < fig_count], is drawn on the [i]-th axis of [axes.flat],
    within bounds. *)
Theorem get_figure_grid (fig_count num_cols : nat) :
  if [|| fig_count == 0%N, num_cols == 0%N |
         (fig_count == 1%N) && (num_cols == 1%N)]
  then _get_figure fig_count num_cols = None
  else exists2 axes : axes_array,
         _get_figure fig_count num_cols = Some axes
         & forall i, (i < fig_count)%N -> figure_ax axes num_cols i = Some i.
Proof.
rewrite /_get_figure; case: (posnP num_cols) => [->|c0]; first by rewrite orbT.
case: (posnP fig_count) => [->|n_gt0] /=.
  by rewrite /plt_subplots add0n divn_small ?subn1 ?prednK.
have := ceil_div_le n_gt0 c0; have := ceil_div_ge fig_count c0.
set num_rows := ((fig_count + num_cols - 1) %/ num_cols)%N => leq_grid le_rows.
have r0 : (0 < num_rows)%N.
  by case: (num_rows) leq_grid n_gt0 => // /[swap]; case: (fig_count).
rewrite /plt_subplots (gtn_eqF r0) (gtn_eqF c0) /=.
case: num_rows r0 leq_grid le_rows => // -[|r] _;
  case: num_cols c0 => // -[|c] _.
- rewrite !muln1 andbT => le1 _.
  by have -> : fig_count == 1%N by rewrite eqn_leq le1.
- rewrite mul1n andbF => le_c _; exists (Axes1D c.+2) => // i lt_i.
  by rewrite /figure_ax /= (leq_trans lt_i).
- rewrite muln1 andbT => le_r r_le.
  have -> : (fig_count == 1%N) = false by rewrite gtn_eqF // (leq_trans _ r_le).
  exists (Axes1D r.+2) => // i lt_i.
  by rewrite /figure_ax /= (leq_trans lt_i).
rewrite andbF => le_rc _; exists (Axes2D r.+2 c.+2) => // i lt_i.
rewrite /figure_ax [_ == _]/= ltn_divLR // (leq_trans lt_i) //= ltn_pmod //.
by rewrite -divn_eq.
Qed.

(* ------------------------------------------------------------------------- *)
(** ** The further properties at concrete inputs                              *)
(* ------------------------------------------------------------------------- *)

Lemma det_scalar_1 (a : R) : \det (a%:M : 'M[R]_1) = a.
Proof. by rewrite det_scalar expr1. Qed.

Lemma get_hellinger_distance_nan_witness :
  get_hellinger_distance ((-1)%:M : 'M[R]_1) 0 (-1)%:M 0 = Ok NaN.
Proof.
apply: get_hellinger_distance_nan; rewrite mean_cov_same det_scalar_1.
  by rewrite oppr_eq0 oner_eq0.
by rewrite ltrN10.
Defined.


Lemma posdef2 : posdef (2 *: 1%:M : 'M[R]_2).
Proof. by apply: posdefZ; [rewrite ltr0n | exact: posdef1]. Qed.

Lemma get_bh_distance_ge0_witness :
  exists b : R,
    get_bh_distance (1%:M : 'M[R]_2) 0 (2 *: 1%:M) (const_mx 1)
    = Ok (Finite b) /\ 0 <= b.
Proof.
exact: (get_bh_distance_ge0 0 (const_mx 1) (posdef1 R 2) posdef2).
Defined.


Lemma mean_cov_scalar (a b : R) :
  map_mx (fun x : R => x / 2) (a%:M + b%:M) = ((a + b) / 2)%:M :> 'M[R]_1.
Proof. by apply/matrixP=> i j; rewrite !mxE !ord1 eqxx !mulr1n. Qed.

Lemma degenerate_component_witness :
  get_bh_distance (0%:M : 'M[R]_1) 0 1%:M 0 = Ok PosInf
  /\ get_hellinger_distance (0%:M : 'M[R]_1) 0 1%:M 0 = Ok (Fin 1).
Proof.
apply: degenerate_component; rewrite ?mean_cov_scalar !det_scalar_1 ?mul0r //.
by rewrite add0r divr_gt0 ?ltr01 ?ltr0n.
Defined.





Lemma distribution_distance_singular_witness :
  distribution_distance gmm_flat gmm_flat = Raise LinAlgError.
Proof.
have det0 : \det (map_mx (fun x : R => x / 2)
                    (nth 0 (covariances_ gmm_flat) 0
                     + nth 0 (covariances_ gmm_flat) 0)) = 0.
  by rewrite mean_cov_same /= det0.
exact: (@distribution_distance_singular 1 gmm_flat gmm_flat 0 0
          erefl erefl isT isT isT isT isT det0).
Defined.

Lemma adata_ex_spots :
  injective (fun s => (tnth (obs_x adata_ex) s, tnth (obs_y adata_ex) s)).
Proof.
move=> s t; rewrite !(tnth_nth 0%N) /= => -[st _]; apply: val_inj.
by case: s t st => [[|[|s]] ?] [[|[|t]] ?].
Qed.

Lemma get_exp_array_cells_witness :
  exists a, get_exp_array adata_ex "a"%string false = Ok a.
Proof.
have n0 : n_obs adata_ex != 0%N by [].
have gin : "a"%string \in var_names adata_ex by [].
have [k [a [_ aE _ _]]] := get_exp_array_cells n0 gin adata_ex_spots.
by exists a.
Defined.

Lemma get_exp_array_low_spots_witness :
  exists (m : R) (a : 'M[int]_(shape0 adata_ex, shape1 adata_ex)),
    get_exp_array adata_ex "a"%string true = Ok a
    /\ forall x y, 0 <= a x y \/ a x y = INT32_MIN.
Proof.
have n0 : n_obs adata_ex != 0%N by [].
have gin : "a"%string \in var_names adata_ex by [].
have [k [kE cells]] := get_exp_array_low_spots n0 gin.
have k0 : k = ord0.
  apply: val_inj; move: kE; rewrite (tnth_nth EmptyString) /=.
  by case: (k) => -[|[|]].
have x0 : (0 < shape0 adata_ex)%N by [].
have y0 : (0 < shape1 adata_ex)%N by [].
have cell0 :
    coo_todense (col k (X adata_ex)) (Ordinal x0) (Ordinal y0) != 0.
  rewrite (@coo_todense_spot adata_ex _ ord0 _ _ adata_ex_spots) //.
  by rewrite k0 !mxE /= oner_eq0.
have [m [a [_ aE _ a0]]] := cells _ _ cell0.
by exists m, a.
Defined.


Lemma adata_ex_arrays g :
  g \in [:: "a"%string; "zero"%string] ->
  exists a, get_exp_array adata_ex g false = Ok a.
Proof. by rewrite !inE => /orP[] /eqP ->; exact: get_exp_array_ok. Qed.

Lemma build_ot_distance_array_sym_witness :
  exists df : DataFrame,
    build_ot_distance_array adata_ex [:: "a"%string; "zero"%string] = Ok df
    /\ exists2 d : R, iat df 0 1 = Ok (Fin d) /\ iat df 1 0 = Ok (Fin d)
                      & 0 <= d.
Proof.
have [df [dfE cells]] :=
  @build_ot_distance_array_sym adata_ex [:: "a"%string; "zero"%string]
    isT adata_ex_arrays.
by exists df; split=> //; exact: cells.
Defined.


Lemma build_mse_distance_array_sym_witness :
  exists df : DataFrame,
    build_mse_distance_array adata_ex [:: "a"%string; "zero"%string] = Ok df
    /\ exists v : float, iat df 0 1 = Ok v /\ iat df 1 0 = Ok v.
Proof.
have [df [dfE cells]] :=
  @build_mse_distance_array_sym adata_ex [:: "a"%string; "zero"%string]
    isT adata_ex_arrays.
exists df; split=> //.
by have [v [v01 v10 _]] := cells 0%N 1%N isT isT; exists v.
Defined.

Lemma build_arrays_unknown_gene_witness :
  build_mse_distance_array adata_ex [:: "a"%string; "b"%string]
  = Raise IndexError.
Proof.
have n0 : n_obs adata_ex != 0%N by [].
by have [] := @build_arrays_unknown_gene adata_ex [:: "a"%string; "b"%string]
  (fun _ _ _ => NaN) "b"%string n0 isT isT.
Defined.

Lemma build_ot_distance_array_unknown_witness :
  build_ot_distance_array adata_ex [:: "a"%string; "b"%string]
  = Raise IndexError.
Proof.
have n0 : n_obs adata_ex != 0%N by [].
exact: (@build_ot_distance_array_unknown adata_ex
          [:: "a"%string; "b"%string] "b"%string n0 isT isT).
Defined.




